(** * ts-delegate: a shallow embedding of [src/delegate.ts]

    The three runtime functions of the library, [delegate],
    [delegateStatic] and [DelegateMethod], read and write properties of
    JavaScript objects.  The embedding therefore starts with a small
    object store: objects with ordered own properties, an enumerable
    flag, a prototype link and a call behaviour.

    Modelled fragment.  Properties are writable data properties with
    string keys (no accessors, no symbols, no proxies, no frozen
    objects); [bind] and [apply] are the built-in ones of
    [Function.prototype]; numbers are integers; donors and recipients are
    object references.  A location that is absent from the store has no
    property and no prototype. *)

From Stdlib Require Import ZArith String List Bool Lia.
From stdpp Require Import base list strings.

Local Open Scope string_scope.
Local Open Scope list_scope.

(** ** Values and objects *)

Abbreviation loc := nat.

Inductive value : Type :=
| VUndefined
| VNull
| VBool (b : bool)
| VNum (n : Z)
| VStr (s : string)
| VObj (l : loc).

#[global] Instance value_eq_dec : EqDecision value.
Proof. solve_decision. Defined.

(** The [[Call]] behaviour of an object.  A function never changes its
    own behaviour after creation, so a bound function and the arrow
    function of [delegateStatic] keep the behaviour of the function they
    captured next to its location. *)
Inductive callable : Type :=
| CNone
| CCode (id : nat)
| CBound (target : loc) (tcall : callable) (boundThis : value)
| CStaticWrapper (val : loc) (vcall : callable) (candidate self : value).

Record prop : Type := mkProp { pvalue : value; penumerable : bool }.

Record obj : Type := mkObj {
  oproto : option loc;
  oprops : list (string * prop);
  ocall : callable
}.

Abbreviation heap := (list obj).

Inductive exn : Type :=
| TypeError
| Thrown (v : value).

(** A completion: normal, or abrupt with the store reached at the throw. *)
Inductive outcome (A : Type) : Type :=
| Normal (a : A)
| Throw (e : exn) (h : heap).

Arguments Normal {A} a.
Arguments Throw {A} e h.

Definition final (r : outcome heap) : heap :=
  match r with
  | Normal h => h
  | Throw _ h => h
  end.

(** ** Own properties *)

Fixpoint lookup_own (ps : list (string * prop)) (k : string) : option prop :=
  match ps with
  | [] => None
  | (k', p) :: ps' => if String.eqb k' k then Some p else lookup_own ps' k
  end.

(** [o[k] = v] on the own properties of an ordinary object: an existing
    property keeps its place and its flag, a new one is appended and is
    enumerable. *)
Fixpoint set_own (ps : list (string * prop)) (k : string) (v : value)
  : list (string * prop) :=
  match ps with
  | [] => [(k, mkProp v true)]
  | (k', p) :: ps' =>
      if String.eqb k' k then (k', mkProp v (penumerable p)) :: ps'
      else (k', p) :: set_own ps' k v
  end.

Definition own_value (h : heap) (l : loc) (k : string) : option value :=
  match h !! l with
  | Some o => pvalue <$> lookup_own (oprops o) k
  | None => None
  end.

Definition set_prop (h : heap) (l : loc) (k : string) (v : value) : heap :=
  alter (fun o => mkObj (oproto o) (set_own (oprops o) k v) (ocall o)) l h.

(** ToBoolean *)
Definition truthy (v : value) : bool :=
  match v with
  | VUndefined | VNull => false
  | VBool b => b
  | VNum n => negb (n =? 0)%Z
  | VStr s => negb (String.eqb s "")
  | VObj _ => true
  end.

Definition is_callable (c : callable) : bool :=
  match c with
  | CNone => false
  | _ => true
  end.

(** [typeof v == "function"] *)
Definition is_function (h : heap) (v : value) : bool :=
  match v with
  | VObj f =>
      match h !! f with
      | Some o => is_callable (ocall o)
      | None => false
      end
  | _ => false
  end.

(** [Object.getPrototypeOf(c)]; [None] stands for [null]. *)
Definition getPrototypeOf (h : heap) (c : loc) : option loc :=
  match h !! c with
  | Some o => oproto o
  | None => None
  end.

(** [Object.getOwnPropertyNames(p)]: every own string key, enumerable or
    not, in the order the object lists them. *)
Definition getOwnPropertyNames (h : heap) (p : loc) : list string :=
  match h !! p with
  | Some o => map fst (oprops o)
  | None => []
  end.

Definition mem (k : string) (ks : list string) : bool :=
  existsb (String.eqb k) ks.

(** The keys of [for (key in l)]: enumerable own keys first, then those of
    the prototype chain; a name already met on the way (enumerable or
    not) is not visited again.  [n] bounds the number of prototype
    links followed. *)
Fixpoint for_in_keys_from (n : nat) (h : heap) (l : loc) (seen : list string)
  : list string :=
  match h !! l with
  | None => []
  | Some o =>
      let own := map fst (oprops o) in
      let here :=
        map fst
          (filter (fun kp => penumerable (snd kp) && negb (mem (fst kp) seen))
                  (oprops o)) in
      match n, oproto o with
      | S n', Some p => here ++ for_in_keys_from n' h p (seen ++ own)
      | _, _ => here
      end
  end.

(** [[Get]]: the own property, else the prototype chain, else
    [undefined]. *)
Fixpoint get_from (n : nat) (h : heap) (l : loc) (k : string) : value :=
  match h !! l with
  | None => VUndefined
  | Some o =>
      match lookup_own (oprops o) k with
      | Some p => pvalue p
      | None =>
          match n, oproto o with
          | S n', Some p => get_from n' h p k
          | _, _ => VUndefined
          end
      end
  end.

Inductive binder : Type :=
| Instance
| Static.

Section Delegate.

(** [depth]: a bound on the length of prototype chains (they are finite
    and acyclic in JavaScript); every result below holds for every
    bound.  [code]: the bodies of the program's own functions, as
    transformers of the store that receive [this] and the arguments.
    [FunctionPrototype]: the realm's [Function.prototype]. *)
Variable depth : nat.
Variable code : nat -> value -> list value -> heap -> outcome (value * heap).
Variable FunctionPrototype : loc.

Definition get (h : heap) (l : loc) (k : string) : value :=
  get_from depth h l k.

Definition for_in_keys (h : heap) (l : loc) : list string :=
  for_in_keys_from depth h l [].

(** [v.k] on an arbitrary value: [None] is the TypeError of reading a
    property of [undefined] or [null].  The built-in prototypes of
    booleans, numbers and strings carry none of the names the library
    reads. *)
Definition get_value (h : heap) (v : value) (k : string) : option value :=
  match v with
  | VUndefined | VNull => None
  | VObj l => Some (get h l k)
  | _ => Some VUndefined
  end.

(** ** Calls *)

Fixpoint call_fn (h : heap) (c : callable) (this : value) (args : list value)
  : outcome (value * heap) :=
  match c with
  | CNone => Throw TypeError h
  | CCode id => code id this args h
  | CBound _ tc bound_this => call_fn h tc bound_this args
  | CStaticWrapper val vc candidate self =>
      call_fn h vc candidate
        (if truthy (get h val "omitFirst") then self :: args else args)
  end.

(** [f(...args)] with receiver [this], for a value [f]. *)
Definition call_value (h : heap) (f : value) (this : value) (args : list value)
  : outcome (value * heap) :=
  match f with
  | VObj l =>
      match h !! l with
      | Some o => call_fn h (ocall o) this args
      | None => Throw TypeError h
      end
  | _ => Throw TypeError h
  end.

(** [recv.m(...args)] *)
Definition call_method (h : heap) (recv : loc) (m : string) (args : list value)
  : outcome (value * heap) :=
  call_value h (get h recv m) (VObj recv) args.

(** ** The binders *)

(** [for (const x of xs) body], with the abrupt completion of a body
    ending the loop. *)
Fixpoint for_of {A : Type} (body : heap -> A -> outcome heap) (h : heap)
  (xs : list A) : outcome heap :=
  match xs with
  | [] => Normal h
  | x :: xs' =>
      match body h x with
      | Normal h' => for_of body h' xs'
      | Throw e h' => Throw e h'
      end
  end.

(** [self[key] = <new function object o>] *)
Definition install (h : heap) (self : loc) (key : string) (o : obj) : heap :=
  set_prop (h ++ [o]) self key (VObj (length h)).

(** [f.bind(this)]: the new bound function object; its prototype is the
    target's. *)
Definition bound_function (f : loc) (fo : obj) (this : value) : obj :=
  mkObj (oproto fo) [] (CBound f (ocall fo) this).

(** The body of the inner loop of [delegate]:
    [if(!candidate[key].isDelegated) continue;
     self[key] = candidate[key].bind(candidate);]
    Without accessors the two reads of [candidate[key]] give the same
    value [v].  Binding a value that is not a function is a TypeError. *)
Definition delegate_key (self candidate : loc) (h : heap) (key : string)
  : outcome heap :=
  let v := get h candidate key in
  match get_value h v "isDelegated" with
  | None => Throw TypeError h
  | Some d =>
      if negb (truthy d) then Normal h
      else
        match v with
        | VObj f =>
            match h !! f with
            | Some fo =>
                if is_callable (ocall fo)
                then Normal (install h self key (bound_function f fo (VObj candidate)))
                else Throw TypeError h
            | None => Throw TypeError h
            end
        | _ => Throw TypeError h
        end
  end.

Definition delegate_candidate (self : loc) (h : heap) (candidate : loc)
  : outcome heap :=
  match getPrototypeOf h candidate with
  | None => Throw TypeError h
  | Some p => for_of (delegate_key self candidate) h (getOwnPropertyNames h p)
  end.

Definition delegate (h : heap) (self : loc) (delegateCandidates : list loc)
  : outcome heap :=
  for_of (delegate_candidate self) h delegateCandidates.

(** The arrow function
    [(...args) => val.apply(candidate, val.omitFirst ? [self, ...args] : args)]. *)
Definition static_wrapper (f : loc) (fo : obj) (candidate self : loc) : obj :=
  mkObj (Some FunctionPrototype) []
        (CStaticWrapper f (ocall fo) (VObj candidate) (VObj self)).

(** The body of the inner loop of [delegateStatic]:
    [const val = candidate[key];
     if (typeof val != "function" || !val.isDelegated) continue;
     self[key] = (...args) => val.apply(...);]
    Past the test [val] is a function object of the store. *)
Definition delegateStatic_key (self candidate : loc) (h : heap) (key : string)
  : outcome heap :=
  let val := get h candidate key in
  if negb (is_function h val)
     || negb (truthy (default VUndefined (get_value h val "isDelegated")))
  then Normal h
  else
    match val with
    | VObj f =>
        match h !! f with
        | Some fo => Normal (install h self key (static_wrapper f fo candidate self))
        | None => Normal h
        end
    | _ => Normal h
    end.

Definition delegateStatic_candidate (self : loc) (h : heap) (candidate : loc)
  : outcome heap :=
  for_of (delegateStatic_key self candidate) h (for_in_keys h candidate).

Definition delegateStatic (h : heap) (self : loc) (delegateCandidates : list loc)
  : outcome heap :=
  for_of (delegateStatic_candidate self) h delegateCandidates.

(** [DelegateMethod(omitFirst)(_, __, descriptor)], applied to
    [descriptor.value]; [None] is the omitted argument, which takes the
    default [false].  Writing a property of a primitive is a TypeError
    in the strict code of a module. *)
Definition DelegateMethod (omitFirst : option bool) (h : heap)
  (descriptor_value : value) : outcome heap :=
  let omitFirst := default false omitFirst in
  match descriptor_value with
  | VObj f =>
      Normal (set_prop (set_prop h f "isDelegated" (VBool true))
                       f "omitFirst" (VBool omitFirst))
  | _ => Throw TypeError h
  end.

(** ** Vocabulary of the statements *)

(** The mark as the binders test it: [v.isDelegated] is truthy. *)
Definition is_marked (h : heap) (v : value) : bool :=
  match get_value h v "isDelegated" with
  | Some d => truthy d
  | None => false
  end.

(** The mode flag as the wrapper tests it: [v.omitFirst] is truthy. *)
Definition omits_first (h : heap) (v : value) : bool :=
  match get_value h v "omitFirst" with
  | Some d => truthy d
  | None => false
  end.

(** The names [delegate] enumerates for a donor. *)
Definition prototype_names (h : heap) (d : loc) : list string :=
  match getPrototypeOf h d with
  | Some p => getOwnPropertyNames h p
  | None => []
  end.

(** Donor [d] carries a marked member [m], as [delegate] finds it. *)
Definition delegates (h : heap) (d : loc) (m : string) : bool :=
  mem m (prototype_names h d) && is_marked h (get h d m).

(** Donor class [D] carries a marked static method [m], as
    [delegateStatic] finds it. *)
Definition delegates_static (h : heap) (D : loc) (m : string) : bool :=
  mem m (for_in_keys h D) && is_function h (get h D m)
  && is_marked h (get h D m).

(** The function object [delegate] builds for member [k] of donor [d]. *)
Definition delegate_wrapper (h : heap) (d : loc) (k : string) : option obj :=
  match get h d k with
  | VObj f =>
      match h !! f with
      | Some fo => Some (bound_function f fo (VObj d))
      | None => None
      end
  | _ => None
  end.

(** The function object [delegateStatic] builds for member [k] of donor
    class [D] and recipient [self]. *)
Definition delegateStatic_wrapper (self : loc) (h : heap) (D : loc) (k : string)
  : option obj :=
  match get h D k with
  | VObj f =>
      match h !! f with
      | Some fo => Some (static_wrapper f fo D self)
      | None => None
      end
  | _ => None
  end.

(** The enumeration and the test of each binder, by name. *)
Definition delegate_names (h : heap) (d : loc) : option (list string) :=
  getOwnPropertyNames h <$> getPrototypeOf h d.

Definition delegate_test (h : heap) (d : loc) (k : string) : bool :=
  is_marked h (get h d k).

Definition delegateStatic_names (h : heap) (D : loc) : option (list string) :=
  Some (for_in_keys h D).

Definition delegateStatic_test (h : heap) (D : loc) (k : string) : bool :=
  is_function h (get h D k) && is_marked h (get h D k).

(** The two binders under one name, for the statements that speak of
    both. *)
Definition bind (b : binder) (h : heap) (self : loc) (donors : list loc)
  : outcome heap :=
  match b with
  | Instance => delegate h self donors
  | Static => delegateStatic h self donors
  end.

Definition carries (b : binder) (h : heap) (d : loc) (m : string) : bool :=
  match b with
  | Instance => delegates h d m
  | Static => delegates_static h d m
  end.

(** The arguments the donor's function receives when the installed
    member is called with [args]. *)
Definition forwarded (b : binder) (h : heap) (f : loc) (self : loc)
  (args : list value) : list value :=
  match b with
  | Instance => args
  | Static => if truthy (get h f "omitFirst") then VObj self :: args else args
  end.

(** The names a binder enumerates for a donor. *)
Definition enumerated (b : binder) (h : heap) (d : loc) : list string :=
  match b with
  | Instance => prototype_names h d
  | Static => for_in_keys h d
  end.

(** [delegate] gets past member [k] of donor [d]: the member's value is
    neither [undefined] nor [null], and when it carries the mark it is
    a function. *)
Definition member_ok (h : heap) (d : loc) (k : string) : bool :=
  match get_value h (get h d k) "isDelegated" with
  | None => false
  | Some v => negb (truthy v) || is_function h (get h d k)
  end.

(** [delegate] gets past donor [d]: it has a prototype, and every own
    name of the prototype is a member [delegate] gets past. *)
Definition donor_ok (h : heap) (d : loc) : bool :=
  match getPrototypeOf h d with
  | None => false
  | Some p => forallb (member_ok h d) (getOwnPropertyNames h p)
  end.

End Delegate.

(** [o'] is [o] with some properties assigned: the same prototype and
    call behaviour, and every property of [o] still there with its
    enumerable flag. *)
Definition same_shape (o o' : obj) : Prop :=
  oproto o' = oproto o /\ ocall o' = ocall o /\
  forall k p, lookup_own (oprops o) k = Some p ->
    exists p', lookup_own (oprops o') k = Some p' /\
               penumerable p' = penumerable p.

(** A reference of the store that is allocated and is not [r]. *)
Definition ref_ok (h : heap) (r : loc) (l : loc) : bool :=
  Nat.ltb l (length h) && negb (Nat.eqb l r).

Definition value_ok (h : heap) (r : loc) (v : value) : bool :=
  match v with
  | VObj l => ref_ok h r l
  | _ => true
  end.

Definition obj_ok (h : heap) (r : loc) (o : obj) : bool :=
  match oproto o with
  | Some p => ref_ok h r p
  | None => true
  end
  && forallb (fun kp => value_ok h r (pvalue (snd kp))) (oprops o).

(** No object of the store refers to the recipient [r], neither as its
    prototype nor in a property, and no reference dangles. *)
Definition isolated (h : heap) (r : loc) : bool :=
  forallb (obj_ok h r) h.

(** The situation of a binder call in a constructor: the recipient [r] is
    an object of the store that nothing refers to yet, and the donors
    are objects of the store other than [r]. *)
Definition separated (h : heap) (r : loc) (donors : list loc) : bool :=
  Nat.ltb r (length h) && isolated h r && forallb (ref_ok h r) donors.

(** [h] is [h0] after a binder ran for recipient [r]: objects were
    added, and no object of [h0] other than [r] changed. *)
Definition extends (r : loc) (h0 h : heap) : Prop :=
  length h0 <= length h /\
  forall l, l < length h0 -> l <> r -> h !! l = h0 !! l.

(** The recipient's own property [m] holds the function object [o]. *)
Definition holds (r : loc) (h : heap) (m : string) (o : obj) : Prop :=
  exists b, own_value h r m = Some (VObj b) /\ b <> r /\ h !! b = Some o.

(** ** A sample program

    The classes of the README, laid out in a store.  Locations are the
    positions in the list. *)
Module Sample.

Definition hidden (v : value) : prop := mkProp v false.
Definition shown (v : value) : prop := mkProp v true.

Definition mark (omitFirst : bool) : list (string * prop) :=
  [("isDelegated", shown (VBool true)); ("omitFirst", shown (VBool omitFirst))].

Definition read_num (h : heap) (v : value) (k : string) : Z :=
  match v with
  | VObj l =>
      match get_from 8 h l k with
      | VNum n => n
      | _ => 0%Z
      end
  | _ => 0%Z
  end.

Definition write (h : heap) (v : value) (k : string) (x : value) : heap :=
  match v with
  | VObj l => set_prop h l k x
  | _ => h
  end.

(** The bodies of the sample's functions:
     0: [doSomething() { this.value++ }]
     1: [static add(a, b) { return a + b }]
     2: [static change(host, to) { host.value = to }]
     3: [doSomething() { this.value += 10 }]
     4: [static add(a, b) { return a * b }]
     other: an empty body *)
Definition code (id : nat) (this : value) (args : list value) (h : heap)
  : outcome (value * heap) :=
  match id, args with
  | 0, _ => Normal (VUndefined, write h this "value" (VNum (read_num h this "value" + 1)))
  | 1, [VNum a; VNum b] => Normal (VNum (a + b), h)
  | 2, [host; to] => Normal (VUndefined, write h host "value" to)
  | 3, _ => Normal (VUndefined, write h this "value" (VNum (read_num h this "value" + 10)))
  | 4, [VNum a; VNum b] => Normal (VNum (a * b), h)
  | _, _ => Normal (VUndefined, h)
  end.

Definition FunctionPrototype : loc := 0.
Definition ClassOne_prototype : loc := 1.
Definition ClassOne : loc := 2.
Definition doSomething : loc := 3.
Definition plain : loc := 4.
Definition one : loc := 5.
Definition ClassTwo_prototype : loc := 6.
Definition doSomething2 : loc := 7.
Definition two : loc := 8.
Definition recipient : loc := 9.
Definition StaticClass : loc := 10.
Definition add : loc := 11.
Definition change : loc := 12.
Definition SubStatic : loc := 13.
Definition Derived_prototype : loc := 14.
Definition derived : loc := 15.
Definition OtherStatic : loc := 16.
Definition mul : loc := 17.
Definition Labelled_prototype : loc := 18.
Definition labelled : loc := 19.
Definition field_mark : loc := 20.
Definition NativeStatic : loc := 22.

Definition store : heap :=
  [ (* 0 Function.prototype *)
    mkObj None [] CNone;
    (* 1 ClassOne.prototype *)
    mkObj None [("constructor", hidden (VObj ClassOne));
                ("doSomething", hidden (VObj doSomething));
                ("thisWontBeDelegated", hidden (VObj plain))] CNone;
    (* 2 ClassOne *)
    mkObj (Some FunctionPrototype) [("prototype", hidden (VObj ClassOne_prototype))] (CCode 9);
    (* 3 ClassOne.prototype.doSomething, marked *)
    mkObj (Some FunctionPrototype) (mark false) (CCode 0);
    (* 4 an unmarked method *)
    mkObj (Some FunctionPrototype) [] (CCode 9);
    (* 5 new ClassOne() *)
    mkObj (Some ClassOne_prototype) [("value", shown (VNum 0)); ("field", shown (VNum 100))] CNone;
    (* 6 ClassTwo.prototype *)
    mkObj None [("doSomething", hidden (VObj doSomething2))] CNone;
    (* 7 ClassTwo.prototype.doSomething, marked *)
    mkObj (Some FunctionPrototype) (mark false) (CCode 3);
    (* 8 new ClassTwo() *)
    mkObj (Some ClassTwo_prototype) [("value", shown (VNum 0))] CNone;
    (* 9 the recipient *)
    mkObj None [("value", shown (VNum 0))] CNone;
    (* 10 StaticClass, statics assigned as a downlevel class has them *)
    mkObj (Some FunctionPrototype)
          [("add", shown (VObj add)); ("change", shown (VObj change));
           ("field", shown (VNum 9548693458)); ("helper", shown (VObj plain))] (CCode 9);
    (* 11 StaticClass.add, marked *)
    mkObj (Some FunctionPrototype) (mark false) (CCode 1);
    (* 12 StaticClass.change, marked with omitFirst *)
    mkObj (Some FunctionPrototype) (mark true) (CCode 2);
    (* 13 class SubStatic extends StaticClass {} *)
    mkObj (Some StaticClass) [] (CCode 9);
    (* 14 Derived.prototype, class Derived extends ClassOne {} *)
    mkObj (Some ClassOne_prototype) [("constructor", hidden (VObj plain))] CNone;
    (* 15 new Derived() *)
    mkObj (Some Derived_prototype) [("value", shown (VNum 0))] CNone;
    (* 16 OtherStatic *)
    mkObj (Some FunctionPrototype) [("add", shown (VObj mul))] (CCode 9);
    (* 17 OtherStatic.add, marked *)
    mkObj (Some FunctionPrototype) (mark false) (CCode 4);
    (* 18 Labelled.prototype, with Labelled.prototype.label = null *)
    mkObj None [("constructor", hidden (VObj plain)); ("label", shown VNull)] CNone;
    (* 19 new Labelled() *)
    mkObj (Some Labelled_prototype) [] CNone;
    (* 20 an object carrying the mark and field flags *)
    mkObj None [("isDelegated", shown (VBool true)); ("allowGet", shown (VBool true));
                ("allowSet", shown (VBool true))] CNone;
    (* 21 FieldHolder, with static field = that object *)
    mkObj (Some FunctionPrototype) [("field", shown (VObj field_mark))] (CCode 9);
    (* 22 NativeStatic, a native class: its static method is not enumerable *)
    mkObj (Some FunctionPrototype) [("run", hidden (VObj add))] (CCode 9)
  ].

End Sample.

(** * Properties *)

(** ** Own properties and the store *)

Lemma lookup_own_set_own_eq ps k v :
  pvalue <$> lookup_own (set_own ps k v) k = Some v.
Proof.
  induction ps as [|[k' p] ps IH]; simpl.
  - by rewrite String.eqb_refl.
  - destruct (String.eqb k' k) eqn:E; simpl; rewrite E; done.
Qed.

Lemma lookup_own_set_own_ne ps k k' v :
  k' <> k -> lookup_own (set_own ps k v) k' = lookup_own ps k'.
Proof.
  intros Hne. induction ps as [|[k1 p] ps IH]; simpl.
  - destruct (String.eqb k k') eqn:E; [|done].
    apply String.eqb_eq in E. congruence.
  - destruct (String.eqb k1 k) eqn:E; simpl.
    + apply String.eqb_eq in E. subst k1.
      destruct (String.eqb k k') eqn:E'; [|done].
      apply String.eqb_eq in E'. congruence.
    + by rewrite IH.
Qed.

Lemma mem_spec k ks : mem k ks = true <-> k ∈ ks.
Proof.
  unfold mem. rewrite existsb_exists, list_elem_of_In. split.
  - intros (x & Hx & E). apply String.eqb_eq in E. by subst.
  - intros H. exists k. split; [done|]. apply String.eqb_refl.
Qed.

Lemma mem_false k ks : mem k ks = false <-> k ∉ ks.
Proof.
  rewrite <- mem_spec. destruct (mem k ks); split; congruence.
Qed.

Lemma length_set_prop h l k v : length (set_prop h l k v) = length h.
Proof. apply length_alter. Qed.

Lemma lookup_set_prop_ne h l l' k v :
  l <> l' -> set_prop h l k v !! l' = h !! l'.
Proof. intros. unfold set_prop. by rewrite list_lookup_alter_ne. Qed.

Lemma own_value_set_prop_eq h l k v :
  l < length h -> own_value (set_prop h l k v) l k = Some v.
Proof.
  intros Hl. unfold own_value, set_prop. rewrite list_lookup_alter_eq.
  destruct (lookup_lt_is_Some_2 h l Hl) as [o ->]. simpl.
  apply lookup_own_set_own_eq.
Qed.

Lemma own_value_set_prop_ne h l l' k k' v :
  k' <> k -> own_value (set_prop h l k v) l' k' = own_value h l' k'.
Proof.
  intros Hk. unfold own_value, set_prop.
  destruct (decide (l = l')) as [->|Hl].
  - rewrite list_lookup_alter_eq. destruct (h !! l'); simpl; [|done].
    by rewrite lookup_own_set_own_ne.
  - by rewrite list_lookup_alter_ne.
Qed.

Lemma length_install h self key o : length (install h self key o) = S (length h).
Proof. unfold install. rewrite length_set_prop, length_app. simpl. lia. Qed.

Lemma lookup_install_old h self key o l :
  l < length h -> l <> self -> install h self key o !! l = h !! l.
Proof.
  intros Hl Hne. unfold install.
  rewrite lookup_set_prop_ne by done. by apply lookup_app_l.
Qed.

Lemma lookup_install_new h self key o :
  self < length h -> install h self key o !! length h = Some o.
Proof.
  intros Hl. unfold install. rewrite lookup_set_prop_ne by lia.
  rewrite lookup_app_r by lia. by rewrite Nat.sub_diag.
Qed.

Lemma own_value_install_eq h self key o :
  self < length h ->
  own_value (install h self key o) self key = Some (VObj (length h)).
Proof.
  intros Hl. unfold install. apply own_value_set_prop_eq.
  rewrite length_app. lia.
Qed.

Lemma own_value_install_ne h self key key' o :
  oprops o = [] -> key' <> key ->
  own_value (install h self key o) self key' = own_value h self key'.
Proof.
  intros Ho Hk. unfold install. rewrite own_value_set_prop_ne by done.
  unfold own_value. destruct (decide (self < length h)) as [Hl|Hl].
  - by rewrite lookup_app_l.
  - rewrite (lookup_ge_None_2 h self) by lia.
    destruct (decide (self = length h)) as [->|Hne].
    + rewrite lookup_app_r by lia. rewrite Nat.sub_diag. simpl. by rewrite Ho.
    + rewrite lookup_ge_None_2; [done|]. rewrite length_app. simpl. lia.
Qed.

(** ** The frame of a binder *)

Lemma extends_refl r h : extends r h h.
Proof. split; [lia|done]. Qed.

Lemma extends_install r h0 h key o :
  extends r h0 h -> extends r h0 (install h r key o).
Proof.
  intros [Hlen Hsame]. split.
  - rewrite length_install. lia.
  - intros l Hl Hne. rewrite lookup_install_old by (done || lia). by apply Hsame.
Qed.

Lemma for_of_final {A} (I : heap -> Prop) (body : heap -> A -> outcome heap) xs :
  (forall h x, x ∈ xs -> I h -> I (final (body h x))) ->
  forall h, I h -> I (final (for_of body h xs)).
Proof.
  induction xs as [|x xs IH]; intros Hbody h Hh; simpl; [done|].
  pose proof (Hbody h x ltac:(left) Hh) as Hx.
  destruct (body h x) as [h'|e h']; simpl in *; [|done].
  apply IH; [|done]. intros h1 y Hy. apply Hbody. by right.
Qed.

Lemma for_of_app {A} (body : heap -> A -> outcome heap) xs ys h :
  for_of body h (xs ++ ys) =
  match for_of body h xs with
  | Normal h' => for_of body h' ys
  | Throw e h' => Throw e h'
  end.
Proof.
  revert h. induction xs as [|x xs IH]; intros h; simpl; [done|].
  destruct (body h x); [apply IH|done].
Qed.

(** ** Reads that a binder cannot disturb *)

Lemma ref_ok_spec h r l : ref_ok h r l = true <-> l < length h /\ l <> r.
Proof.
  unfold ref_ok. rewrite andb_true_iff, negb_true_iff.
  rewrite Nat.ltb_lt, Nat.eqb_neq. done.
Qed.

Lemma isolated_lookup h r l o :
  isolated h r = true -> h !! l = Some o -> obj_ok h r o = true.
Proof.
  unfold isolated. rewrite forallb_forall. intros Hall Hl.
  apply Hall, list_elem_of_In, list_elem_of_lookup. eauto.
Qed.

Lemma obj_ok_proto h r o p :
  obj_ok h r o = true -> oproto o = Some p -> ref_ok h r p = true.
Proof.
  unfold obj_ok. rewrite andb_true_iff. intros [Hp _] E. by rewrite E in Hp.
Qed.

Lemma obj_ok_prop h r o k p :
  obj_ok h r o = true -> lookup_own (oprops o) k = Some p ->
  value_ok h r (pvalue p) = true.
Proof.
  unfold obj_ok. rewrite andb_true_iff. intros [_ Hps].
  rewrite forallb_forall in Hps. intros Hk.
  induction (oprops o) as [|[k' q] ps IH]; simpl in *; [done|].
  destruct (String.eqb k' k).
  - injection Hk as <-. apply (Hps (k', q)). by left.
  - apply IH; [|done]. intros x Hx. apply Hps. by right.
Qed.

Lemma extends_lookup r h0 h l :
  extends r h0 h -> ref_ok h0 r l = true -> h !! l = h0 !! l.
Proof. intros [_ H] [Hl Hne]%ref_ok_spec. by apply H. Qed.

Lemma get_from_ok n h r l k :
  isolated h r = true -> value_ok h r (get_from n h l k) = true.
Proof.
  intros Hiso. revert l. induction n as [|n IH]; intros l; simpl;
    destruct (h !! l) as [o|] eqn:Hl; try done;
    destruct (lookup_own (oprops o) k) as [p|] eqn:Hk;
    eauto using obj_ok_prop, isolated_lookup.
  by destruct (oproto o).
Qed.

Lemma get_from_extends n r h0 h l k :
  isolated h0 r = true -> extends r h0 h -> ref_ok h0 r l = true ->
  get_from n h l k = get_from n h0 l k.
Proof.
  intros Hiso Hext. revert l. induction n as [|n IH]; intros l Hl; simpl;
    rewrite (extends_lookup _ _ _ _ Hext Hl);
    destruct (h0 !! l) as [o|] eqn:Ho; try done;
    destruct (lookup_own (oprops o) k); try done.
  destruct (oproto o) as [p|] eqn:Hp; [|done].
  apply IH. eauto using obj_ok_proto, isolated_lookup.
Qed.

Lemma for_in_keys_from_extends n r h0 h l seen :
  isolated h0 r = true -> extends r h0 h -> ref_ok h0 r l = true ->
  for_in_keys_from n h l seen = for_in_keys_from n h0 l seen.
Proof.
  intros Hiso Hext. revert l seen. induction n as [|n IH]; intros l seen Hl; simpl;
    rewrite (extends_lookup _ _ _ _ Hext Hl);
    destruct (h0 !! l) as [o|] eqn:Ho; try done.
  destruct (oproto o) as [p|] eqn:Hp; [|done].
  f_equal. apply IH. eauto using obj_ok_proto, isolated_lookup.
Qed.

Lemma is_function_extends r h0 h v :
  extends r h0 h -> value_ok h0 r v = true ->
  is_function h v = is_function h0 v.
Proof.
  intros Hext Hv. destruct v; simpl in *; try done.
  by rewrite (extends_lookup _ _ _ _ Hext Hv).
Qed.

Section Reads.

Variable depth : nat.

Lemma get_ok h r l k : isolated h r = true -> value_ok h r (get depth h l k) = true.
Proof. apply get_from_ok. Qed.

Lemma get_extends r h0 h l k :
  isolated h0 r = true -> extends r h0 h -> ref_ok h0 r l = true ->
  get depth h l k = get depth h0 l k.
Proof. apply get_from_extends. Qed.

Lemma get_value_extends r h0 h v k :
  isolated h0 r = true -> extends r h0 h -> value_ok h0 r v = true ->
  get_value depth h v k = get_value depth h0 v k.
Proof.
  intros Hiso Hext Hv. destruct v; simpl in *; try done.
  f_equal. by eapply get_extends.
Qed.

Lemma is_marked_extends r h0 h v :
  isolated h0 r = true -> extends r h0 h -> value_ok h0 r v = true ->
  is_marked depth h v = is_marked depth h0 v.
Proof. intros. unfold is_marked. by erewrite get_value_extends. Qed.

Lemma prototype_names_extends r h0 h d :
  isolated h0 r = true -> extends r h0 h -> ref_ok h0 r d = true ->
  prototype_names h d = prototype_names h0 d.
Proof.
  intros Hiso Hext Hd. unfold prototype_names, getPrototypeOf.
  rewrite (extends_lookup _ _ _ _ Hext Hd).
  destruct (h0 !! d) as [o|] eqn:Ho; [|done].
  destruct (oproto o) as [p|] eqn:Hp; [|done].
  unfold getOwnPropertyNames. erewrite extends_lookup; [done..|].
  eauto using obj_ok_proto, isolated_lookup.
Qed.

Lemma for_in_keys_extends r h0 h D :
  isolated h0 r = true -> extends r h0 h -> ref_ok h0 r D = true ->
  for_in_keys depth h D = for_in_keys depth h0 D.
Proof. apply for_in_keys_from_extends. Qed.

End Reads.

(** ** What any of the two binders does

    Both binders are two nested loops around a step that either leaves
    the store alone or installs a new function object on the recipient.
    The argument is made once, for a step given by its enumeration
    [keys], its test [crit] and the object [wrapper] it builds. *)
Section Binder.

Variable r : loc.
Variable keys : heap -> loc -> option (list string).
Variable crit : heap -> loc -> string -> bool.
Variable wrapper : heap -> loc -> string -> option obj.
Variable step : loc -> heap -> string -> outcome heap.
Variable body : heap -> loc -> outcome heap.

Hypothesis body_eq : forall h d,
  body h d =
  match keys h d with
  | Some ks => for_of (step d) h ks
  | None => Throw TypeError h
  end.

Hypothesis step_cases : forall d h k,
  final (step d h k) = h \/
  exists o, wrapper h d k = Some o /\ crit h d k = true /\
            step d h k = Normal (install h r k o).

Hypothesis step_installs : forall d h k h',
  crit h d k = true -> step d h k = Normal h' ->
  exists o, wrapper h d k = Some o /\ h' = install h r k o.

Hypothesis wrapper_props : forall h d k o,
  wrapper h d k = Some o -> oprops o = [].

Local Abbreviation carries h d m :=
  (match keys h d with
   | Some ks => mem m ks && crit h d m
   | None => false
   end).

Lemma step_extends h0 d h k :
  extends r h0 h -> extends r h0 (final (step d h k)).
Proof.
  intros Hext. destruct (step_cases d h k) as [->|(o & _ & _ & ->)]; [done|].
  by apply extends_install.
Qed.

Lemma body_extends h0 h d :
  extends r h0 h -> extends r h0 (final (body h d)).
Proof.
  intros Hext. rewrite body_eq. destruct (keys h d) as [ks|]; [|done].
  apply for_of_final; [|done]. intros h1 k _. apply step_extends.
Qed.

Lemma binder_extends h0 h ds :
  extends r h0 h -> extends r h0 (final (for_of body h ds)).
Proof.
  intros Hext. apply for_of_final; [|done]. intros h1 d _. apply body_extends.
Qed.

Lemma step_other_key d h k m :
  m <> k -> own_value (final (step d h k)) r m = own_value h r m.
Proof.
  intros Hne. destruct (step_cases d h k) as [->|(o & Ho & _ & ->)]; [done|].
  simpl. apply own_value_install_ne; eauto.
Qed.

(** A name that the enumeration of the one donor does not list is left
    as it was on the recipient. *)
Lemma body_untouched h d m :
  match keys h d with Some ks => mem m ks | None => false end = false ->
  own_value (final (body h d)) r m = own_value h r m.
Proof.
  intros Hm. rewrite body_eq. destruct (keys h d) as [ks|]; [|done].
  apply mem_false in Hm.
  apply (for_of_final (fun h' => own_value h' r m = own_value h r m)); [|done].
  intros h1 k Hk <-. apply step_other_key. intros ->. done.
Qed.

Section Separated.

Variable h0 : heap.
Hypothesis r_alloc : r < length h0.
Hypothesis iso : isolated h0 r = true.

Hypothesis stable : forall h d k,
  extends r h0 h -> ref_ok h0 r d = true ->
  keys h d = keys h0 d /\ crit h d k = crit h0 d k /\
  wrapper h d k = wrapper h0 d k.

(** Every name whose own property on the recipient changed is a member
    that some donor of the list carries with the mark. *)
Lemma binder_only_marked ds :
  forallb (ref_ok h0 r) ds = true ->
  forall k, own_value (final (for_of body h0 ds)) r k <> own_value h0 r k ->
  exists d, d ∈ ds /\ carries h0 d k = true.
Proof.
  intros Hds.
  pose (I := fun h => extends r h0 h /\
     forall k, own_value h r k <> own_value h0 r k ->
     exists d, d ∈ ds /\ carries h0 d k = true).
  assert (I (final (for_of body h0 ds))) as [_ H]; [|exact H].
  apply for_of_final; [|split; [apply extends_refl|done]].
  intros h d Hd [Hext HI]. rewrite body_eq.
  assert (ref_ok h0 r d = true) as Hok.
  { rewrite forallb_forall in Hds. by apply Hds, list_elem_of_In. }
  destruct (keys h d) as [ks|] eqn:Hks; [|by split].
  apply for_of_final; [|by split].
  intros h1 k Hk [Hext1 HI1]. split; [by apply step_extends|].
  intros k' Hk'. destruct (decide (k' = k)) as [->|Hne].
  - destruct (step_cases d h1 k) as [E|(o & _ & Hc & E)]; rewrite E in Hk'.
    + by apply HI1.
    + exists d. split; [done|].
      destruct (stable h d k Hext Hok) as (<- & _ & _). rewrite Hks.
      destruct (stable h1 d k Hext1 Hok) as (_ & <- & _). rewrite Hc.
      rewrite andb_true_r. by apply mem_spec.
  - rewrite step_other_key in Hk' by done. by apply HI1.
Qed.

Local Abbreviation holds h m o := (holds r h m o).

Lemma install_holds h m o : r < length h -> holds (install h r m o) m o.
Proof.
  intros Hr. exists (length h). split; [by apply own_value_install_eq|].
  split; [lia|]. by apply lookup_install_new.
Qed.

Lemma install_keeps h m o k o' :
  oprops o' = [] -> k <> m -> holds h m o -> holds (install h r k o') m o.
Proof.
  intros Ho' Hne (b & Hown & Hb & Hlook). exists b.
  split; [by rewrite own_value_install_ne|]. split; [done|].
  rewrite lookup_install_old; [done| |done]. by eapply lookup_lt_Some.
Qed.

Lemma step_keeps d h k m o :
  k <> m -> holds h m o -> holds (final (step d h k)) m o.
Proof.
  intros Hne Hh. destruct (step_cases d h k) as [->|(o' & Ho' & _ & ->)]; [done|].
  simpl. eapply install_keeps; eauto.
Qed.

(** The loop over the names of the donor that carries [m]. *)
Lemma donor_loop_holds d m o ks : forall h h',
  ref_ok h0 r d = true -> crit h0 d m = true -> wrapper h0 d m = Some o ->
  extends r h0 h -> holds h m o \/ m ∈ ks ->
  for_of (step d) h ks = Normal h' -> holds h' m o.
Proof.
  induction ks as [|k ks IH]; intros h h' Hok Hc Hw Hext Hor; simpl.
  - intros [= <-]. destruct Hor as [H|H]; [done|]. by apply not_elem_of_nil in H.
  - destruct (step d h k) as [h1|] eqn:Hstep; [|done]. intros Hrest.
    assert (extends r h0 h1) as Hext1.
    { pose proof (step_extends h0 d h k Hext) as H. by rewrite Hstep in H. }
    apply (IH h1 h' Hok Hc Hw Hext1); [|done].
    destruct (decide (k = m)) as [->|Hne].
    + left. destruct (stable h d m Hext Hok) as (_ & Hc' & Hw').
      rewrite Hc in Hc'. destruct (step_installs d h m h1 Hc' Hstep) as (o' & Ho' & ->).
      rewrite Hw', Hw in Ho'. injection Ho' as <-.
      apply install_holds. destruct Hext. lia.
    + destruct Hor as [H|H].
      * left. pose proof (step_keeps d h k m o Hne H) as H'. by rewrite Hstep in H'.
      * right. apply elem_of_cons in H as [->|H]; done.
Qed.

(** A donor that does not carry [m] leaves the installed member alone. *)
Lemma other_donor_keeps d m o h :
  ref_ok h0 r d = true -> carries h0 d m = false ->
  extends r h0 h -> holds h m o -> holds (final (body h d)) m o.
Proof.
  intros Hok Hnot Hext Hh. rewrite body_eq.
  destruct (keys h d) as [ks|] eqn:Hks; [|done].
  destruct (stable h d m Hext Hok) as (Hk0 & _ & _).
  rewrite <- Hk0, Hks in Hnot.
  pose (I := fun h1 => extends r h0 h1 /\ holds h1 m o).
  assert (I (final (for_of (step d) h ks))) as [_ H]; [|exact H].
  apply for_of_final; [|by split].
  intros h1 k Hk [Hext1 Hh1]. split; [by apply step_extends|].
  destruct (decide (k = m)) as [->|Hne]; [|by apply step_keeps].
  apply mem_spec in Hk. rewrite Hk in Hnot. simpl in Hnot.
  destruct (step_cases d h1 m) as [->|(o' & _ & Hc & _)]; [done|].
  destruct (stable h1 d m Hext1 Hok) as (_ & Hc' & _). congruence.
Qed.

(** Last writer wins: after the whole list, the recipient's [m] is the
    function object built for the last donor that carries [m]. *)
Lemma binder_last_writer pre d post m h' :
  forallb (ref_ok h0 r) (pre ++ d :: post) = true ->
  carries h0 d m = true ->
  forallb (fun d' => negb (carries h0 d' m)) post = true ->
  for_of body h0 (pre ++ d :: post) = Normal h' ->
  extends r h0 h' /\
  exists o, wrapper h0 d m = Some o /\ holds h' m o.
Proof.
  intros Hds Hcar Hpost Hrun.
  split.
  { pose proof (binder_extends h0 h0 (pre ++ d :: post) (extends_refl _ _)) as H.
    by rewrite Hrun in H. }
  rewrite forallb_app in Hds. simpl in Hds.
  apply andb_true_iff in Hds as [_ [Hd Hpostok]%andb_true_iff].
  rewrite for_of_app in Hrun.
  destruct (for_of body h0 pre) as [h1|] eqn:Hpre; [|done].
  assert (extends r h0 h1) as Hext1.
  { pose proof (binder_extends h0 h0 pre (extends_refl _ _)) as H.
    by rewrite Hpre in H. }
  simpl in Hrun. destruct (body h1 d) as [h2|] eqn:Hbody; [|done].
  assert (extends r h0 h2) as Hext2.
  { pose proof (body_extends h0 h1 d Hext1) as H. by rewrite Hbody in H. }
  destruct (keys h0 d) as [ks|] eqn:Hks; [|done].
  apply andb_true_iff in Hcar as [Hmem Hc].
  rewrite body_eq in Hbody.
  destruct (stable h1 d m Hext1 Hd) as (Hk1 & Hc1 & Hw1).
  rewrite Hk1, Hks in Hbody.
  assert (exists o, wrapper h0 d m = Some o) as [o Hw].
  { destruct (wrapper h0 d m) as [o|] eqn:Hw; [eauto|]. exfalso.
    apply mem_spec, list_elem_of_split in Hmem as (ks1 & ks2 & ->).
    rewrite for_of_app in Hbody.
    destruct (for_of (step d) h1 ks1) as [h3|] eqn:H3; [|done].
    simpl in Hbody. destruct (step d h3 m) as [h4|] eqn:H4; [|done].
    assert (extends r h0 h3) as Hext3.
    { pose proof (for_of_final (extends r h0) (step d) ks1
        (fun h k _ => step_extends h0 d h k) h1 Hext1) as H.
      by rewrite H3 in H. }
    destruct (stable h3 d m Hext3 Hd) as (_ & Hc3 & Hw3).
    rewrite Hc in Hc3.
    destruct (step_installs d h3 m h4 Hc3 H4) as (o & Ho & _). congruence. }
  exists o. split; [done|].
  assert (holds h2 m o) as Hh2.
  { eapply (donor_loop_holds d m o ks h1 h2); eauto. right. by apply mem_spec. }
  pose (I := fun h => extends r h0 h /\ holds h m o).
  assert (I (final (for_of body h2 post))) as [_ H].
  { apply for_of_final; [|by split].
    intros h d' Hd' [Hext Hh]. split; [by apply body_extends|].
    rewrite forallb_forall in Hpost, Hpostok.
    apply list_elem_of_In in Hd'.
    specialize (Hpost d' Hd'). specialize (Hpostok d' Hd').
    apply negb_true_iff in Hpost.
    by apply other_donor_keeps. }
  by rewrite Hrun in H.
Qed.

End Separated.

End Binder.

(** ** The two binders as instances *)

Section Instances.

Variable depth : nat.
Variable FunctionPrototype : loc.

Lemma delegate_body_eq r h d :
  delegate_candidate depth r h d =
  match delegate_names h d with
  | Some ks => for_of (delegate_key depth r d) h ks
  | None => Throw TypeError h
  end.
Proof.
  unfold delegate_candidate, delegate_names. by destruct (getPrototypeOf h d).
Qed.

Lemma delegate_step_cases r d h k :
  final (delegate_key depth r d h k) = h \/
  exists o, delegate_wrapper depth h d k = Some o /\
            delegate_test depth h d k = true /\
            delegate_key depth r d h k = Normal (install h r k o).
Proof.
  unfold delegate_key, delegate_wrapper, delegate_test, is_marked.
  destruct (get_value depth h (get depth h d k) "isDelegated") as [v|]; [|by left].
  destruct (truthy v) eqn:Hv; simpl; [|by left].
  destruct (get depth h d k) as [| | | | |f]; try by left.
  destruct (h !! f) as [fo|]; [|by left].
  destruct (is_callable (ocall fo)); [|by left].
  right. eauto.
Qed.

Lemma delegate_step_installs r d h k h' :
  delegate_test depth h d k = true ->
  delegate_key depth r d h k = Normal h' ->
  exists o, delegate_wrapper depth h d k = Some o /\ h' = install h r k o.
Proof.
  unfold delegate_key, delegate_wrapper, delegate_test, is_marked.
  destruct (get_value depth h (get depth h d k) "isDelegated") as [v|]; [|done].
  intros ->. simpl.
  destruct (get depth h d k) as [| | | | |f]; try done.
  destruct (h !! f) as [fo|]; [|done].
  destruct (is_callable (ocall fo)); [|done].
  intros [= <-]. eauto.
Qed.

Lemma delegate_wrapper_props h d k o :
  delegate_wrapper depth h d k = Some o -> oprops o = [].
Proof.
  unfold delegate_wrapper. destruct (get depth h d k); try done.
  destruct (h !! l); [|done]. by intros [= <-].
Qed.

Lemma delegate_stable r h0 h d k :
  isolated h0 r = true -> extends r h0 h -> ref_ok h0 r d = true ->
  delegate_names h d = delegate_names h0 d /\
  delegate_test depth h d k = delegate_test depth h0 d k /\
  delegate_wrapper depth h d k = delegate_wrapper depth h0 d k.
Proof.
  intros Hiso Hext Hd.
  pose proof (get_extends depth r h0 h d k Hiso Hext Hd) as Hget.
  pose proof (get_ok depth h0 r d k Hiso) as Hok.
  split; [|split].
  - pose proof (prototype_names_extends r h0 h d Hiso Hext Hd) as Hn.
    unfold delegate_names, prototype_names, getPrototypeOf in *.
    rewrite (extends_lookup _ _ _ _ Hext Hd) in *.
    destruct (h0 !! d) as [o|]; [|done]. destruct (oproto o); [|done].
    simpl. by f_equal.
  - unfold delegate_test. rewrite Hget. by eapply is_marked_extends.
  - unfold delegate_wrapper. rewrite Hget.
    destruct (get depth h0 d k) as [| | | | |f]; try done.
    simpl in Hok. by rewrite (extends_lookup _ _ _ _ Hext Hok).
Qed.

Lemma delegates_carries h d m :
  delegates depth h d m =
  match delegate_names h d with
  | Some ks => mem m ks && delegate_test depth h d m
  | None => false
  end.
Proof.
  unfold delegates, delegate_names, prototype_names, delegate_test.
  by destruct (getPrototypeOf h d).
Qed.

Lemma delegateStatic_body_eq r h D :
  delegateStatic_candidate depth FunctionPrototype r h D =
  match delegateStatic_names depth h D with
  | Some ks => for_of (delegateStatic_key depth FunctionPrototype r D) h ks
  | None => Throw TypeError h
  end.
Proof. done. Qed.

Lemma delegateStatic_step_cases r D h k :
  final (delegateStatic_key depth FunctionPrototype r D h k) = h \/
  exists o, delegateStatic_wrapper depth FunctionPrototype r h D k = Some o /\
            delegateStatic_test depth h D k = true /\
            delegateStatic_key depth FunctionPrototype r D h k
            = Normal (install h r k o).
Proof.
  unfold delegateStatic_key, delegateStatic_wrapper, delegateStatic_test, is_marked.
  destruct (is_function h (get depth h D k)) eqn:Hf; simpl; [|by left].
  destruct (get_value depth h (get depth h D k) "isDelegated") as [v|]; simpl;
    [|by left].
  destruct (truthy v); simpl; [|by left].
  destruct (get depth h D k) as [| | | | |f]; try by left.
  destruct (h !! f) as [fo|]; [|by left].
  right. eauto.
Qed.

Lemma delegateStatic_step_installs r D h k h' :
  delegateStatic_test depth h D k = true ->
  delegateStatic_key depth FunctionPrototype r D h k = Normal h' ->
  exists o, delegateStatic_wrapper depth FunctionPrototype r h D k = Some o /\
            h' = install h r k o.
Proof.
  unfold delegateStatic_key, delegateStatic_wrapper, delegateStatic_test, is_marked.
  intros [Hf Hm]%andb_true_iff. rewrite Hf. simpl.
  destruct (get_value depth h (get depth h D k) "isDelegated") as [v|]; [|done].
  simpl. rewrite Hm. simpl.
  destruct (get depth h D k) as [| | | | |f]; try done.
  simpl in Hf. destruct (h !! f) as [fo|]; [|done].
  intros [= <-]. eauto.
Qed.

Lemma delegateStatic_wrapper_props r h D k o :
  delegateStatic_wrapper depth FunctionPrototype r h D k = Some o -> oprops o = [].
Proof.
  unfold delegateStatic_wrapper. destruct (get depth h D k); try done.
  destruct (h !! l); [|done]. by intros [= <-].
Qed.

Lemma delegateStatic_stable r h0 h D k :
  isolated h0 r = true -> extends r h0 h -> ref_ok h0 r D = true ->
  delegateStatic_names depth h D = delegateStatic_names depth h0 D /\
  delegateStatic_test depth h D k = delegateStatic_test depth h0 D k /\
  delegateStatic_wrapper depth FunctionPrototype r h D k
  = delegateStatic_wrapper depth FunctionPrototype r h0 D k.
Proof.
  intros Hiso Hext Hd.
  pose proof (get_extends depth r h0 h D k Hiso Hext Hd) as Hget.
  pose proof (get_ok depth h0 r D k Hiso) as Hok.
  split; [|split].
  - unfold delegateStatic_names. f_equal. by eapply for_in_keys_extends.
  - unfold delegateStatic_test. rewrite Hget.
    erewrite is_function_extends, is_marked_extends; done.
  - unfold delegateStatic_wrapper. rewrite Hget.
    destruct (get depth h0 D k) as [| | | | |f]; try done.
    simpl in Hok. by rewrite (extends_lookup _ _ _ _ Hext Hok).
Qed.

Lemma delegates_static_carries h D m :
  delegates_static depth h D m =
  match delegateStatic_names depth h D with
  | Some ks => mem m ks && delegateStatic_test depth h D m
  | None => false
  end.
Proof.
  unfold delegates_static, delegateStatic_names, delegateStatic_test.
  by rewrite andb_assoc.
Qed.

End Instances.

(** ** Facts about [delegate] and [delegateStatic] *)

Lemma separated_spec h r ds :
  separated h r ds = true ->
  r < length h /\ isolated h r = true /\ forallb (ref_ok h r) ds = true.
Proof.
  unfold separated. rewrite !andb_true_iff, Nat.ltb_lt. tauto.
Qed.

Lemma ref_ok_middle h r (pre : list loc) d post :
  forallb (ref_ok h r) (pre ++ d :: post) = true -> ref_ok h r d = true.
Proof.
  rewrite forallb_app. simpl. rewrite !andb_true_iff. tauto.
Qed.

Lemma forallb_negb_ext {A} (f g : A -> bool) xs :
  (forall x, f x = g x) ->
  forallb (fun x => negb (f x)) xs = forallb (fun x => negb (g x)) xs.
Proof. intros E. induction xs; simpl; [done|]. by rewrite E, IHxs. Qed.

Lemma for_of_normal {A} (body : heap -> A -> outcome heap) xs :
  (forall h x, exists h', body h x = Normal h') ->
  forall h, exists h', for_of body h xs = Normal h'.
Proof.
  intros Hbody. induction xs as [|x xs IH]; intros h; simpl; [eauto|].
  destruct (Hbody h x) as [h1 ->]. apply IH.
Qed.

Section Binders.

Variable depth : nat.
Variable code : nat -> value -> list value -> heap -> outcome (value * heap).
Variable FunctionPrototype : loc.

Local Abbreviation get := (get depth).
Local Abbreviation delegate := (delegate depth).
Local Abbreviation delegateStatic := (delegateStatic depth FunctionPrototype).
Local Abbreviation delegates := (delegates depth).
Local Abbreviation delegates_static := (delegates_static depth).
Local Abbreviation call_fn := (call_fn depth code).
Local Abbreviation call_value := (call_value depth code).
Local Abbreviation call_method := (call_method depth code).

Lemma get_own h l k v : own_value h l k = Some v -> get h l k = v.
Proof.
  unfold own_value, get. intros H.
  destruct depth; simpl; destruct (h !! l) as [o|]; try done;
    destruct (lookup_own (oprops o) k); simpl in H; congruence.
Qed.

Lemma delegate_extends h r ds : extends r h (final (delegate h r ds)).
Proof.
  eapply binder_extends;
    eauto using delegate_body_eq, delegate_step_cases, extends_refl.
Qed.

Lemma delegateStatic_extends h r ds : extends r h (final (delegateStatic h r ds)).
Proof.
  eapply binder_extends;
    eauto using delegateStatic_body_eq, delegateStatic_step_cases, extends_refl.
Qed.

(** [delegateStatic] has no abrupt completion. *)
Lemma delegateStatic_key_normal r D h k :
  exists h', delegateStatic_key depth FunctionPrototype r D h k = Normal h'.
Proof.
  unfold delegateStatic_key.
  destruct (negb _ || negb _); [eauto|].
  destruct (get h D k); eauto. destruct (h !! l); eauto.
Qed.

Lemma delegateStatic_normal h r ds : exists h', delegateStatic h r ds = Normal h'.
Proof.
  apply for_of_normal. clear h. intros h D.
  apply for_of_normal. clear h. intros h k.
  apply delegateStatic_key_normal.
Qed.

Lemma delegate_untouched h r d m :
  mem m (prototype_names h d) = false ->
  own_value (final (delegate h r [d])) r m = own_value h r m.
Proof.
  intros Hm. unfold delegate. simpl.
  rewrite <- (body_untouched r delegate_names (delegate_test depth)
    (delegate_wrapper depth) (delegate_key depth r) (delegate_candidate depth r)
    (delegate_body_eq depth r) (delegate_step_cases depth r)
    (delegate_wrapper_props depth) h d m).
  - by destruct (delegate_candidate depth r h d).
  - unfold delegate_names, prototype_names in *.
    by destruct (getPrototypeOf h d).
Qed.

Lemma delegateStatic_untouched h r D m :
  mem m (for_in_keys depth h D) = false ->
  own_value (final (delegateStatic h r [D])) r m = own_value h r m.
Proof.
  intros Hm. unfold delegateStatic. simpl.
  rewrite <- (body_untouched r (delegateStatic_names depth)
    (delegateStatic_test depth)
    (delegateStatic_wrapper depth FunctionPrototype r)
    (delegateStatic_key depth FunctionPrototype r)
    (delegateStatic_candidate depth FunctionPrototype r)
    (delegateStatic_body_eq depth FunctionPrototype r)
    (delegateStatic_step_cases depth FunctionPrototype r)
    (delegateStatic_wrapper_props depth FunctionPrototype r) h D m Hm).
  by destruct (delegateStatic_candidate depth FunctionPrototype r h D).
Qed.

Lemma delegate_only_marked h r ds k :
  separated h r ds = true ->
  own_value (final (delegate h r ds)) r k <> own_value h r k ->
  exists d, d ∈ ds /\ delegates h d k = true.
Proof.
  intros (Hr & Hiso & Hds)%separated_spec Hk.
  destruct (binder_only_marked r delegate_names (delegate_test depth)
    (delegate_wrapper depth) (delegate_key depth r) (delegate_candidate depth r)
    (delegate_body_eq depth r) (delegate_step_cases depth r)
    (delegate_wrapper_props depth) h
    (fun h1 d k1 => delegate_stable depth r h h1 d k1 Hiso) ds Hds k Hk)
    as (d & Hd & Hc).
  exists d. by rewrite delegates_carries.
Qed.

Lemma delegateStatic_only_marked h r ds k :
  separated h r ds = true ->
  own_value (final (delegateStatic h r ds)) r k <> own_value h r k ->
  exists D, D ∈ ds /\ delegates_static h D k = true.
Proof.
  intros (Hr & Hiso & Hds)%separated_spec Hk.
  destruct (binder_only_marked r (delegateStatic_names depth)
    (delegateStatic_test depth)
    (delegateStatic_wrapper depth FunctionPrototype r)
    (delegateStatic_key depth FunctionPrototype r)
    (delegateStatic_candidate depth FunctionPrototype r)
    (delegateStatic_body_eq depth FunctionPrototype r)
    (delegateStatic_step_cases depth FunctionPrototype r)
    (delegateStatic_wrapper_props depth FunctionPrototype r) h
    (fun h1 d k1 => delegateStatic_stable depth FunctionPrototype r h h1 d k1 Hiso)
    ds Hds k Hk) as (d & Hd & Hc).
  exists d. by rewrite delegates_static_carries.
Qed.

Lemma delegate_last_writer h r pre d post m h' :
  separated h r (pre ++ d :: post) = true ->
  delegates h d m = true ->
  forallb (fun d' => negb (delegates h d' m)) post = true ->
  delegate h r (pre ++ d :: post) = Normal h' ->
  extends r h h' /\
  exists o, delegate_wrapper depth h d m = Some o /\ holds r h' m o.
Proof.
  intros (Hr & Hiso & Hds)%separated_spec Hd Hpost Hrun.
  rewrite delegates_carries in Hd.
  rewrite (forallb_negb_ext _ _ _ (fun d' => delegates_carries depth h d' m)) in Hpost.
  exact (binder_last_writer r delegate_names (delegate_test depth)
    (delegate_wrapper depth) (delegate_key depth r) (delegate_candidate depth r)
    (delegate_body_eq depth r) (delegate_step_cases depth r)
    (delegate_step_installs depth r) (delegate_wrapper_props depth) h Hr
    (fun h1 d1 k1 => delegate_stable depth r h h1 d1 k1 Hiso)
    pre d post m h' Hds Hd Hpost Hrun).
Qed.

Lemma delegateStatic_last_writer h r pre D post m h' :
  separated h r (pre ++ D :: post) = true ->
  delegates_static h D m = true ->
  forallb (fun D' => negb (delegates_static h D' m)) post = true ->
  delegateStatic h r (pre ++ D :: post) = Normal h' ->
  extends r h h' /\
  exists o, delegateStatic_wrapper depth FunctionPrototype r h D m = Some o /\
            holds r h' m o.
Proof.
  intros (Hr & Hiso & Hds)%separated_spec Hd Hpost Hrun.
  rewrite delegates_static_carries in Hd.
  rewrite (forallb_negb_ext _ _ _
    (fun d' => delegates_static_carries depth h d' m)) in Hpost.
  exact (binder_last_writer r (delegateStatic_names depth)
    (delegateStatic_test depth)
    (delegateStatic_wrapper depth FunctionPrototype r)
    (delegateStatic_key depth FunctionPrototype r)
    (delegateStatic_candidate depth FunctionPrototype r)
    (delegateStatic_body_eq depth FunctionPrototype r)
    (delegateStatic_step_cases depth FunctionPrototype r)
    (delegateStatic_step_installs depth FunctionPrototype r)
    (delegateStatic_wrapper_props depth FunctionPrototype r) h Hr
    (fun h1 d1 k1 => delegateStatic_stable depth FunctionPrototype r h h1 d1 k1 Hiso)
    pre D post m h' Hds Hd Hpost Hrun).
Qed.

End Binders.

(** ** Calling what the binders installed *)

Section Calls.

Variable depth : nat.
Variable code : nat -> value -> list value -> heap -> outcome (value * heap).
Variable FunctionPrototype : loc.

Local Abbreviation get := (get depth).
Local Abbreviation delegate := (delegate depth).
Local Abbreviation delegateStatic := (delegateStatic depth FunctionPrototype).
Local Abbreviation delegates := (delegates depth).
Local Abbreviation delegates_static := (delegates_static depth).
Local Abbreviation call_fn := (call_fn depth code).
Local Abbreviation call_value := (call_value depth code).
Local Abbreviation call_method := (call_method depth code).

Lemma holds_get r h m o :
  holds r h m o -> exists b, get h r m = VObj b /\ h !! b = Some o.
Proof. intros (b & Hown & _ & Hb). exists b. eauto using get_own. Qed.

Lemma delegate_wrapper_inv h d m o :
  delegate_wrapper depth h d m = Some o ->
  exists f fo, get h d m = VObj f /\ h !! f = Some fo /\
               o = bound_function f fo (VObj d).
Proof.
  unfold delegate_wrapper. destruct (get h d m) as [| | | | |f]; try done.
  destruct (h !! f) as [fo|] eqn:Hf; [|done]. intros [= <-]. eauto.
Qed.

Lemma delegateStatic_wrapper_inv r h D m o :
  delegateStatic_wrapper depth FunctionPrototype r h D m = Some o ->
  exists f fo, get h D m = VObj f /\ h !! f = Some fo /\
               o = static_wrapper FunctionPrototype f fo D r.
Proof.
  unfold delegateStatic_wrapper.
  destruct (get h D m) as [| | | | |f]; try done.
  destruct (h !! f) as [fo|] eqn:Hf; [|done]. intros [= <-]. eauto.
Qed.

(** The donor's member is the same function before and after binding. *)
Lemma donor_member_stable r h h' d m f fo :
  isolated h r = true -> extends r h h' -> ref_ok h r d = true ->
  get h d m = VObj f -> h !! f = Some fo ->
  get h' d m = VObj f /\ h' !! f = Some fo /\
  forall k, get h' f k = get h f k.
Proof.
  intros Hiso Hext Hd Hget Hf.
  pose proof (get_ok depth h r d m Hiso) as Hok.
  rewrite Hget in Hok. simpl in Hok.
  split; [|split].
  - by erewrite get_extends.
  - by rewrite (extends_lookup _ _ _ _ Hext Hok).
  - intros k. by eapply get_extends.
Qed.

(** The member [delegate] installed, called with any receiver, is the
    donor's method called on the donor. *)
Lemma bound_member_call r h h' d m o this args :
  isolated h r = true -> extends r h h' -> ref_ok h r d = true ->
  delegate_wrapper depth h d m = Some o -> holds r h' m o ->
  call_value h' (get h' r m) this args = call_method h' d m args.
Proof.
  intros Hiso Hext Hd (f & fo & Hget & Hf & ->)%delegate_wrapper_inv
    (b & Hb & Ho)%holds_get.
  destruct (donor_member_stable r h h' d m f fo Hiso Hext Hd Hget Hf)
    as (Hget' & Hf' & _).
  unfold call_method. rewrite Hb, Hget'.
  simpl. by rewrite Ho, Hf'.
Qed.

(** The member [delegateStatic] installed, called with any receiver, is
    the donor's static method called on the donor class, with the
    recipient put first when the mark says so. *)
Lemma static_member_call r h h' D m o this args :
  isolated h r = true -> extends r h h' -> ref_ok h r D = true ->
  delegateStatic_wrapper depth FunctionPrototype r h D m = Some o ->
  holds r h' m o ->
  call_value h' (get h' r m) this args =
  call_method h' D m
    (if omits_first depth h (get h D m) then VObj r :: args else args).
Proof.
  intros Hiso Hext Hd (f & fo & Hget & Hf & ->)%delegateStatic_wrapper_inv
    (b & Hb & Ho)%holds_get.
  destruct (donor_member_stable r h h' D m f fo Hiso Hext Hd Hget Hf)
    as (Hget' & Hf' & Hk).
  unfold call_method. rewrite Hb, Hget', Hget.
  simpl. rewrite Ho, Hf'. simpl. by rewrite Hk.
Qed.

End Calls.

(** * The claims *)

Section Claims.

Variable depth : nat.
Variable code : nat -> value -> list value -> heap -> outcome (value * heap).
Variable FunctionPrototype : loc.

Local Abbreviation get := (get depth).
Local Abbreviation delegate := (delegate depth).
Local Abbreviation delegateStatic := (delegateStatic depth FunctionPrototype).
Local Abbreviation bind := (bind depth FunctionPrototype).
Local Abbreviation carries := (carries depth).
Local Abbreviation forwarded := (forwarded depth).
Local Abbreviation delegates := (delegates depth).
Local Abbreviation delegates_static := (delegates_static depth).
Local Abbreviation call_fn := (call_fn depth code).
Local Abbreviation call_value := (call_value depth code).
Local Abbreviation call_method := (call_method depth code).

Lemma bind_extends b h r ds : extends r h (final (bind b h r ds)).
Proof. destruct b; [apply delegate_extends | apply delegateStatic_extends]. Qed.

(** Either binder, after the whole donor list: the recipient's [m] is a
    new function object that forwards to the member [m] of the last
    donor carrying it, with that donor as receiver. *)
Lemma bind_last_writer b h r pre d post m h' :
  separated h r (pre ++ d :: post) = true ->
  carries b h d m = true ->
  forallb (fun d' => negb (carries b h d' m)) post = true ->
  bind b h r (pre ++ d :: post) = Normal h' ->
  exists f fo i o,
    get h d m = VObj f /\ h !! f = Some fo /\
    own_value h' r m = Some (VObj i) /\ h' !! i = Some o /\
    (forall h2 this args,
       call_fn h2 (ocall o) this args =
       call_fn h2 (ocall fo) (VObj d) (forwarded b h2 f r args)) /\
    (forall this args,
       call_value h' (get h' r m) this args =
       call_method h' d m (forwarded b h f r args)).
Proof.
  intros Hsep Hd Hpost Hrun.
  pose proof Hsep as (Hr & Hiso & Hds)%separated_spec.
  pose proof Hds as Hdok. apply ref_ok_middle in Hdok.
  destruct b; simpl in *.
  - destruct (delegate_last_writer depth h r pre d post m h' Hsep Hd Hpost Hrun)
      as (Hext & o & Hw & Hh).
    pose proof Hw as (f & fo & Hget & Hf & ->)%delegate_wrapper_inv.
    pose proof Hh as (i & Hown & _ & Hi).
    exists f, fo, i, (bound_function f fo (VObj d)).
    do 4 (split; [done|]). split; [done|].
    intros this args.
    exact (bound_member_call depth code r h h' d m _ this args Hiso Hext Hdok Hw Hh).
  - destruct (delegateStatic_last_writer depth FunctionPrototype h r pre d post m h'
                Hsep Hd Hpost Hrun) as (Hext & o & Hw & Hh).
    pose proof Hw as (f & fo & Hget & Hf & ->)%delegateStatic_wrapper_inv.
    pose proof Hh as (i & Hown & _ & Hi).
    exists f, fo, i, (static_wrapper FunctionPrototype f fo d r).
    do 4 (split; [done|]). split; [done|].
    intros this args.
    rewrite (static_member_call depth code FunctionPrototype r h h' d m _ this args
               Hiso Hext Hdok Hw Hh).
    unfold omits_first. by rewrite Hget.
Qed.

(** C1. For a donor instance [d] with a marked method [m] and a recipient
    [r], after [delegate(r, [... d ...])] the call [r.m(args)] has the
    outcome of [d.m(args)] with [this] bound to [d]: the same result (or
    the same exception) and the same store afterwards, hence the same
    mutation of [d].  The recipient is a fresh object distinct from the
    donors, and [d] is the last donor of the list that carries [m]. *)
Theorem delegate_call_is_donor_call h r pre d post m h' args :
  separated h r (pre ++ d :: post) = true ->
  delegates h d m = true ->
  forallb (fun d' => negb (delegates h d' m)) post = true ->
  delegate h r (pre ++ d :: post) = Normal h' ->
  call_method h' r m args = call_method h' d m args.
Proof.
  intros Hsep Hd Hpost Hrun.
  pose proof Hsep as (Hr & Hiso & Hds)%separated_spec.
  apply ref_ok_middle in Hds.
  destruct (delegate_last_writer depth h r pre d post m h' Hsep Hd Hpost Hrun)
    as (Hext & o & Hw & Hh).
  exact (bound_member_call depth code r h h' d m o (VObj r) args
           Hiso Hext Hds Hw Hh).
Qed.



(** C5. After either binder, every name whose own property on the
    recipient was installed or changed is a member that one of the
    donors carries with a delegation mark; a member without the mark
    never becomes an own member of the recipient. *)
Theorem only_marked_members_installed b h r ds k :
  separated h r ds = true ->
  own_value (final (bind b h r ds)) r k <> own_value h r k ->
  exists d, d ∈ ds /\ carries b h d k = true.
Proof.
  destruct b; simpl.
  - apply delegate_only_marked.
  - apply delegateStatic_only_marked.
Qed.

(** C7, as amended. [delegateStatic] enumerates the donor with [for ... in]:
    a member is installed only if its name is an enumerable string key
    of the donor or of an object on its prototype chain.  A name outside
    that enumeration is never installed. *)
Theorem delegateStatic_installs_only_for_in_keys h r D m :
  mem m (for_in_keys depth h D) = false ->
  own_value (final (delegateStatic h r [D])) r m = own_value h r m.
Proof. apply delegateStatic_untouched. Qed.

(** C9. [delegate] enumerates the own property names of the donor's
    immediate prototype only: a method [m] that is not among them, such
    as a marked method defined on a superclass prototype, is not
    installed on the recipient. *)
Theorem inherited_method_not_installed h r d m :
  mem m (prototype_names h d) = false ->
  own_value (final (delegate h r [d])) r m = own_value h r m.
Proof. apply delegate_untouched. Qed.

(** C10. The receiver is fixed when the binder runs.  The function
    object that either binder installs for member [m] of donor [d]
    ignores the receiver of the call: in any later store and for any
    [this], it runs the donor's function with the donor as receiver. *)
Theorem receiver_fixed_at_bind_time b h r d m h' :
  separated h r [d] = true ->
  carries b h d m = true ->
  bind b h r [d] = Normal h' ->
  exists f fo i o,
    get h d m = VObj f /\ h !! f = Some fo /\
    own_value h' r m = Some (VObj i) /\ h' !! i = Some o /\
    forall h2 this args,
      call_fn h2 (ocall o) this args =
      call_fn h2 (ocall fo) (VObj d) (forwarded b h2 f r args).
Proof.
  intros Hsep Hd Hrun.
  destruct (bind_last_writer b h r [] d [] m h' Hsep Hd eq_refl Hrun)
    as (f & fo & i & o & Hget & Hf & Hown & Hi & Hany & _).
  exists f, fo, i, o. auto.
Qed.


End Claims.

(** C8, as amended. [DelegateMethod] keeps the mark on the function
    itself: it writes the two own properties [isDelegated] (true) and
    [omitFirst] (the flag, false when omitted) of the decorated function
    object.  Every other own property of the function, its prototype,
    its call behaviour and every other object are unchanged. *)
Theorem DelegateMethod_marks_the_function_itself omitFirst h f fo :
  h !! f = Some fo ->
  exists h' fo',
    DelegateMethod omitFirst h (VObj f) = Normal h' /\
    h' !! f = Some fo' /\
    oproto fo' = oproto fo /\ ocall fo' = ocall fo /\
    own_value h' f "isDelegated" = Some (VBool true) /\
    own_value h' f "omitFirst" = Some (VBool (default false omitFirst)) /\
    (forall k, k <> "isDelegated" -> k <> "omitFirst" ->
               own_value h' f k = own_value h f k) /\
    (forall l, l <> f -> h' !! l = h !! l).
Proof.
  intros Hf. pose proof (lookup_lt_Some _ _ _ Hf) as Hlt.
  eexists _, _. split; [reflexivity|].
  split.
  { unfold set_prop. rewrite !list_lookup_alter_eq, Hf. reflexivity. }
  simpl. do 2 (split; [done|]).
  split.
  { rewrite own_value_set_prop_ne by done. by apply own_value_set_prop_eq. }
  split.
  { apply own_value_set_prop_eq. by rewrite length_set_prop. }
  split.
  - intros k H1 H2. by rewrite !own_value_set_prop_ne.
  - intros l Hl. by rewrite !lookup_set_prop_ne.
Qed.

(** ** Where the binders do nothing *)

Lemma for_of_noop {A} (body : heap -> A -> outcome heap) h xs :
  (forall x, x ∈ xs -> body h x = Normal h) -> for_of body h xs = Normal h.
Proof.
  induction xs as [|x xs IH]; intros Hbody; simpl; [done|].
  rewrite Hbody by left. apply IH. intros y Hy. apply Hbody. by right.
Qed.

Lemma delegate_nil depth h r : delegate depth h r [] = Normal h.
Proof. reflexivity. Qed.

Lemma delegateStatic_nil depth fp h r : delegateStatic depth fp h r [] = Normal h.
Proof. reflexivity. Qed.

(** A class without marked static methods: [delegateStatic] completes and
    the store is the one before. *)
Lemma delegateStatic_no_mark_is_noop depth fp h r ds :
  (forall D k, D ∈ ds -> k ∈ for_in_keys depth h D ->
               delegateStatic_test depth h D k = false) ->
  delegateStatic depth fp h r ds = Normal h.
Proof.
  intros Hno. apply for_of_noop. intros D HD.
  apply for_of_noop. intros k Hk. specialize (Hno D k HD Hk).
  destruct (delegateStatic_step_cases depth fp r D h k) as [E|(o & _ & Hc & _)];
    [|congruence].
  destruct (delegateStatic_key_normal depth fp r D h k) as [h1 Hs].
  rewrite Hs in E |- *. simpl in E. by subst.
Qed.

(** A donor without marked members whose prototype members all hold a
    value other than [undefined] and [null]: [delegate] completes and the
    store is the one before. *)
Lemma delegate_no_mark_is_noop depth h r ds :
  (forall d, d ∈ ds -> exists p, getPrototypeOf h d = Some p /\
     forall k, k ∈ getOwnPropertyNames h p ->
       exists v, get_value depth h (get depth h d k) "isDelegated" = Some v /\
                 truthy v = false) ->
  delegate depth h r ds = Normal h.
Proof.
  intros Hno. apply for_of_noop. intros d Hd.
  destruct (Hno d Hd) as (p & Hp & Hks). unfold delegate_candidate. rewrite Hp.
  apply for_of_noop. intros k Hk. destruct (Hks k Hk) as (v & Hv & Hfalse).
  unfold delegate_key. by rewrite Hv, Hfalse.
Qed.

(** A donor whose prototype lists a member holding [null] or
    [undefined] before any marked one: [delegate] ends with a TypeError
    at that member. *)
Lemma delegate_nullish_member_throws depth h r d ds p k ks :
  getPrototypeOf h d = Some p ->
  getOwnPropertyNames h p = k :: ks ->
  get_value depth h (get depth h d k) "isDelegated" = None ->
  delegate depth h r (d :: ds) = Throw TypeError h.
Proof.
  intros Hp Hks Hk. unfold delegate. simpl. unfold delegate_candidate.
  rewrite Hp, Hks. simpl. unfold delegate_key. by rewrite Hk.
Qed.

(** * The claims on the sample program *)

Import Sample.

(** C6. The donor [new Labelled()] has no marked member, and
    [Labelled.prototype.label] is [null]: [delegate] does not complete,
    it throws a TypeError on reading [null.isDelegated]. *)
Theorem delegate_throws_on_null_member :
  (forall k, delegates 8 store labelled k = false) /\
  delegate 8 store recipient [labelled] = Throw TypeError store.
Proof.
  split; [|vm_compute; reflexivity].
  intros k. unfold delegates.
  destruct (mem k (prototype_names store labelled)) eqn:Hk; [|done].
  apply mem_spec in Hk. vm_compute in Hk.
  apply elem_of_cons in Hk as [->|Hk]; [vm_compute; reflexivity|].
  apply elem_of_cons in Hk as [->|Hk]; [vm_compute; reflexivity|].
  by apply not_elem_of_nil in Hk.
Qed.

(** The scenarios of the specification. *)
Example scenario_add :
  exists h', delegateStatic 8 FunctionPrototype store recipient [StaticClass] = Normal h' /\
    call_method 8 code h' recipient "add" [VNum 5; VNum 10] = Normal (VNum 15, h').
Proof. eexists. split; vm_compute; reflexivity. Qed.

Example scenario_change :
  exists h' h2, delegateStatic 8 FunctionPrototype store recipient [StaticClass] = Normal h' /\
    call_method 8 code h' recipient "change" [VNum 100] = Normal (VUndefined, h2) /\
    get 8 h' recipient "value" = VNum 0 /\
    get 8 h2 recipient "value" = VNum 100.
Proof. eexists _, _. repeat split; vm_compute; reflexivity. Qed.

Example scenario_two_donors :
  exists h' h2 h3, delegate 8 store recipient [one; derived] = Normal h' /\
    call_method 8 code h' recipient "doSomething" [] = Normal (VUndefined, h2) /\
    get 8 h2 one "value" = VNum 1 /\ get 8 h2 recipient "value" = VNum 0 /\
    delegate 8 store recipient [one; two] = Normal h3 /\
    own_value h3 recipient "thisWontBeDelegated" = None.
Proof. eexists _, _, _. repeat split; vm_compute; reflexivity. Qed.


(** C7, counterexample.  [SubStatic] has no own static member and
    inherits the marked [add] of [StaticClass]; [delegateStatic] installs
    it on the recipient. *)
Lemma delegateStatic_installs_inherited_static :
  ~ (forall depth fp h r D m,
       mem m (getOwnPropertyNames h D) = false ->
       own_value (final (delegateStatic depth fp h r [D])) r m = own_value h r m).
Proof.
  intros H.
  specialize (H 8 FunctionPrototype store recipient SubStatic "add" eq_refl).
  vm_compute in H. discriminate.
Qed.

(** C8, counterexample.  Marking the function [thisWontBeDelegated],
    which has no own property, gives it two. *)
Lemma DelegateMethod_changes_own_properties :
  ~ (forall omitFirst h f,
       getOwnPropertyNames (final (DelegateMethod omitFirst h (VObj f))) f
       = getOwnPropertyNames h f).
Proof.
  intros H. specialize (H None store plain). vm_compute in H. discriminate.
Qed.

(** ** Witnesses *)

Lemma delegate_call_is_donor_call_witness :
  call_method 8 code (final (delegate 8 store recipient [two; one; derived]))
              recipient "doSomething" []
  = call_method 8 code (final (delegate 8 store recipient [two; one; derived]))
                one "doSomething" [].
Proof.
  apply (delegate_call_is_donor_call 8 code store recipient [two] one [derived]
           "doSomething"); vm_compute; reflexivity.
Defined.



Lemma only_marked_members_installed_witness :
  exists d, d ∈ [StaticClass; OtherStatic] /\ carries 8 Static store d "change" = true.
Proof.
  apply (only_marked_members_installed 8 FunctionPrototype Static store recipient
           [StaticClass; OtherStatic] "change").
  - vm_compute; reflexivity.
  - vm_compute. discriminate.
Defined.

Lemma delegateStatic_installs_only_for_in_keys_witness :
  is_marked 8 store (get 8 store NativeStatic "run") = true /\
  own_value (final (delegateStatic 8 FunctionPrototype store recipient [NativeStatic]))
            recipient "run"
  = own_value store recipient "run".
Proof.
  split; [vm_compute; reflexivity|].
  apply (delegateStatic_installs_only_for_in_keys 8 FunctionPrototype store recipient
           NativeStatic "run"). vm_compute; reflexivity.
Defined.

Lemma inherited_method_not_installed_witness :
  is_marked 8 store (get 8 store derived "doSomething") = true /\
  own_value (final (delegate 8 store recipient [derived])) recipient "doSomething"
  = own_value store recipient "doSomething".
Proof.
  split; [vm_compute; reflexivity|].
  apply (inherited_method_not_installed 8 store recipient derived "doSomething").
  vm_compute; reflexivity.
Defined.

Lemma receiver_fixed_at_bind_time_witness :
  exists f fo i o,
    get 8 store StaticClass "change" = VObj f /\ store !! f = Some fo /\
    own_value (final (delegateStatic 8 FunctionPrototype store recipient [StaticClass]))
              recipient "change" = Some (VObj i) /\
    final (delegateStatic 8 FunctionPrototype store recipient [StaticClass]) !! i = Some o /\
    forall h2 this args,
      call_fn 8 code h2 (ocall o) this args =
      call_fn 8 code h2 (ocall fo) (VObj StaticClass)
              (forwarded 8 Static h2 f recipient args).
Proof.
  apply (receiver_fixed_at_bind_time 8 code FunctionPrototype Static store recipient
           StaticClass "change"); vm_compute; reflexivity.
Defined.


Lemma DelegateMethod_marks_the_function_itself_witness :
  exists h' fo',
    DelegateMethod (Some true) store (VObj plain) = Normal h' /\
    h' !! plain = Some fo' /\
    oproto fo' = Some FunctionPrototype /\ ocall fo' = CCode 9 /\
    own_value h' plain "isDelegated" = Some (VBool true) /\
    own_value h' plain "omitFirst" = Some (VBool true) /\
    (forall k, k <> "isDelegated" -> k <> "omitFirst" ->
               own_value h' plain k = own_value store plain k) /\
    (forall l, l <> plain -> h' !! l = store !! l).
Proof.
  apply (DelegateMethod_marks_the_function_itself (Some true) store plain
           (mkObj (Some FunctionPrototype) [] (CCode 9))).
  reflexivity.
Defined.

(** * Further properties of the binders and of the mark *)

(** ** Own properties, again *)

Lemma lookup_own_set_own_flag ps k v p :
  lookup_own ps k = Some p ->
  lookup_own (set_own ps k v) k = Some (mkProp v (penumerable p)).
Proof.
  induction ps as [|[k' q] ps IH]; simpl; [done|].
  destruct (String.eqb k' k) eqn:E; simpl; rewrite E; [by intros [= ->]|done].
Qed.

Lemma set_own_same ps k v p :
  lookup_own ps k = Some p -> pvalue p = v -> set_own ps k v = ps.
Proof.
  induction ps as [|[k' q] ps IH]; simpl; [done|].
  destruct (String.eqb k' k) eqn:E.
  - intros [= ->] <-. by destruct p.
  - intros H1 H2. by rewrite IH.
Qed.

Lemma set_own_set_own ps k v1 v2 :
  set_own (set_own ps k v1) k v2 = set_own ps k v2.
Proof.
  induction ps as [|[k' q] ps IH]; simpl.
  - by rewrite String.eqb_refl.
  - destruct (String.eqb k' k) eqn:E; simpl; rewrite E; [done|]. by rewrite IH.
Qed.

Lemma same_shape_refl o : same_shape o o.
Proof. repeat split. eauto. Qed.

Lemma same_shape_set_own o o' k v :
  same_shape o o' ->
  same_shape o (mkObj (oproto o') (set_own (oprops o') k v) (ocall o')).
Proof.
  intros (Hp & Hc & Hk). split; [done|]. split; [done|]. simpl.
  intros k0 p Hk0. destruct (Hk k0 p Hk0) as (p' & Hp' & Hflag).
  destruct (decide (k0 = k)) as [->|Hne].
  - eexists. split; [by apply lookup_own_set_own_flag|]. done.
  - exists p'. by rewrite lookup_own_set_own_ne.
Qed.

(** ** One induction for both binders *)

Section Induction.

Variable depth : nat.
Variable FunctionPrototype : loc.

Local Abbreviation bind := (bind depth FunctionPrototype).

(** What holds before a binder and is kept by every installation holds
    after it, whether it completes or throws. *)
Lemma bind_invariant b r (I : heap -> Prop) :
  (forall h d k f fo,
     I h -> get depth h d k = VObj f -> h !! f = Some fo ->
     I (install h r k
          (match b with
           | Instance => bound_function f fo (VObj d)
           | Static => static_wrapper FunctionPrototype f fo d r
           end))) ->
  forall h ds, I h -> I (final (bind b h r ds)).
Proof.
  intros Hinst h ds Hh. destruct b; simpl.
  - unfold delegate. apply (for_of_final I); [|done]. intros h1 d _ Hh1.
    rewrite delegate_body_eq. destruct (delegate_names h1 d) as [ks|]; [|done].
    apply (for_of_final I); [|done]. intros h2 k _ Hh2.
    destruct (delegate_step_cases depth r d h2 k) as [->|(o & Hw & _ & ->)]; [done|].
    apply delegate_wrapper_inv in Hw as (f & fo & Hget & Hf & ->).
    by apply (Hinst h2 d k f fo).
  - unfold delegateStatic. apply (for_of_final I); [|done].
    intros h1 d _ Hh1. unfold delegateStatic_candidate.
    apply (for_of_final I); [|done]. intros h2 k _ Hh2.
    destruct (delegateStatic_step_cases depth FunctionPrototype r d h2 k)
      as [->|(o & Hw & _ & ->)]; [done|].
    apply delegateStatic_wrapper_inv in Hw as (f & fo & Hget & Hf & ->).
    by apply (Hinst h2 d k f fo).
Qed.

(** X1. A binder touches the recipient and nothing else.  Whatever the
    recipient, the donors and the outcome: the store only grows, every
    object that was there other than the recipient is unchanged (so no
    donor is mutated), and the recipient keeps its prototype, its call
    behaviour and every property it had, with the same enumerable
    flag. *)
Theorem binder_changes_only_recipient b h r ds :
  length h <= length (final (bind b h r ds)) /\
  (forall l, l < length h -> l <> r -> final (bind b h r ds) !! l = h !! l) /\
  (forall o, h !! r = Some o ->
     exists o', final (bind b h r ds) !! r = Some o' /\ same_shape o o').
Proof.
  pose (I := fun h' : heap =>
    extends r h h' /\
    forall o, h !! r = Some o -> exists o', h' !! r = Some o' /\ same_shape o o').
  assert (I (final (bind b h r ds))) as [[Hlen Hsame] Hr].
  { apply bind_invariant.
    - intros h1 d k f fo [Hext Hshape] _ _. split; [by apply extends_install|].
      intros o Ho. destruct (Hshape o Ho) as (o1 & Ho1 & Hs).
      eexists. split; [|by apply (same_shape_set_own o o1 k (VObj (length h1)))].
      unfold install, set_prop. rewrite list_lookup_alter_eq.
      rewrite lookup_app_l by (by eapply lookup_lt_Some). by rewrite Ho1.
    - split; [apply extends_refl|]. eauto using same_shape_refl. }
  done.
Qed.

(** X4. Binding a concatenated donor list is binding the first list and
    then, unless that threw, the second one from the store reached. *)
Theorem bind_app b h r ds1 ds2 :
  bind b h r (ds1 ++ ds2) =
  match bind b h r ds1 with
  | Normal h1 => bind b h1 r ds2
  | Throw e h1 => Throw e h1
  end.
Proof. destruct b; apply for_of_app. Qed.

End Induction.

(** X3. [delegateStatic] never throws, whatever the store, the recipient
    and the donors (a member holding [null] is skipped by the [typeof]
    test); and when no donor has a marked function among its
    [for ... in] keys, the store it returns is the one it was given. *)
Theorem delegateStatic_never_throws depth fp h r ds :
  exists h', delegateStatic depth fp h r ds = Normal h' /\
    ((forall D k, D ∈ ds -> k ∈ for_in_keys depth h D ->
                  delegateStatic_test depth h D k = false) ->
     h' = h).
Proof.
  destruct (delegateStatic_normal depth fp h r ds) as [h' Hrun].
  exists h'. split; [done|]. intros Hno.
  rewrite (delegateStatic_no_mark_is_noop depth fp h r ds Hno) in Hrun.
  by injection Hrun.
Qed.

(** X7. Marking again overwrites the mode: marking with one flag and then
    with another gives the store that marking with the second flag alone
    gives.  In particular marking twice with the same flag is marking
    once. *)
Theorem DelegateMethod_last_mode_wins o1 o2 h v :
  DelegateMethod o2 (final (DelegateMethod o1 h v)) v = DelegateMethod o2 h v.
Proof.
  destruct v as [| | | | |f]; try done. simpl. f_equal.
  unfold set_prop. rewrite !list_alter_alter_eq.
  apply list_alter_ext; [|done]. intros o _. simpl. f_equal.
  set (ps := set_own (oprops o) "isDelegated" (VBool true)).
  destruct (lookup_own (set_own ps "omitFirst" (VBool (default false o1)))
              "isDelegated") as [p|] eqn:Hp.
  - rewrite (set_own_same _ _ _ p Hp).
    + apply set_own_set_own.
    + rewrite lookup_own_set_own_ne in Hp by done.
      pose proof (lookup_own_set_own_eq (oprops o) "isDelegated" (VBool true)) as E.
      fold ps in E. rewrite Hp in E. by injection E.
  - rewrite lookup_own_set_own_ne in Hp by done.
    pose proof (lookup_own_set_own_eq (oprops o) "isDelegated" (VBool true)) as E.
    fold ps in E. by rewrite Hp in E.
Qed.

(** ** When [delegate] completes *)

Lemma extends_trans r h0 h1 h2 :
  extends r h0 h1 -> extends r h1 h2 -> extends r h0 h2.
Proof.
  intros [L1 S1] [L2 S2]. split; [lia|].
  intros l Hl Hne. rewrite S2 by (done || lia). by apply S1.
Qed.

Lemma for_of_throw {A} (body : heap -> A -> outcome heap) xs : forall h e h',
  for_of body h xs = Throw e h' ->
  exists x h1, x ∈ xs /\ body h1 x = Throw e h'.
Proof.
  induction xs as [|x xs IH]; intros h e h'; simpl; [done|].
  destruct (body h x) as [h1|e1 h1] eqn:E.
  - intros H. destruct (IH _ _ _ H) as (y & h2 & Hy & Hb).
    exists y, h2. split; [by right|done].
  - intros [= -> ->]. exists x, h. split; [by left|done].
Qed.


Section Completion.

Variable depth : nat.

Local Abbreviation delegate := (delegate depth).
Local Abbreviation member_ok := (member_ok depth).
Local Abbreviation donor_ok := (donor_ok depth).

Lemma delegate_key_normal_iff r d h k :
  (exists h', delegate_key depth r d h k = Normal h') <-> member_ok h d k = true.
Proof.
  unfold delegate_key, member_ok, is_function.
  destruct (get_value depth h (get depth h d k) "isDelegated") as [v|];
    [|split; [by intros [? ?]|done]].
  destruct (truthy v); simpl; [|split; eauto].
  destruct (get depth h d k) as [| | | | |f];
    try (split; [by intros [? ?]|done]).
  destruct (h !! f) as [fo|]; [|split; [by intros [? ?]|done]].
  destruct (is_callable (ocall fo)); [split; eauto|split; [by intros [? ?]|done]].
Qed.

Lemma delegate_key_throw r d h k e h' :
  delegate_key depth r d h k = Throw e h' -> e = TypeError.
Proof.
  unfold delegate_key.
  destruct (get_value depth h (get depth h d k) "isDelegated") as [v|];
    [|by intros [= <- _]].
  destruct (negb (truthy v)); [done|].
  destruct (get depth h d k) as [| | | | |f]; try by intros [= <- _].
  destruct (h !! f) as [fo|]; [|by intros [= <- _]].
  destruct (is_callable (ocall fo)); [done|by intros [= <- _]].
Qed.

Lemma member_ok_extends r h0 h d k :
  isolated h0 r = true -> extends r h0 h -> ref_ok h0 r d = true ->
  member_ok h d k = member_ok h0 d k.
Proof.
  intros Hiso Hext Hd. unfold member_ok.
  pose proof (get_ok depth h0 r d k Hiso) as Hok.
  rewrite (get_extends depth r h0 h d k Hiso Hext Hd).
  rewrite (get_value_extends depth r h0 h _ _ Hiso Hext Hok).
  by rewrite (is_function_extends r h0 h _ Hext Hok).
Qed.

Lemma donor_ok_names h d :
  donor_ok h d =
  match delegate_names h d with
  | Some ks => forallb (member_ok h d) ks
  | None => false
  end.
Proof. unfold donor_ok, delegate_names. by destruct (getPrototypeOf h d). Qed.

Lemma delegate_key_extends r h0 d h k h' :
  extends r h0 h -> delegate_key depth r d h k = Normal h' -> extends r h0 h'.
Proof.
  intros Hext Hk.
  destruct (delegate_step_cases depth r d h k) as [E|(o & _ & _ & E)];
    rewrite Hk in E; simpl in E.
  - by subst.
  - injection E as ->. by apply extends_install.
Qed.

Lemma delegate_keys_extends r h0 d ks h h' :
  extends r h0 h -> for_of (delegate_key depth r d) h ks = Normal h' ->
  extends r h0 h'.
Proof.
  intros Hext Hrun.
  assert (extends r h0 (final (for_of (delegate_key depth r d) h ks))) as H.
  { apply (for_of_final (extends r h0)); [|done]. intros h1 k _ Hext1.
    destruct (delegate_step_cases depth r d h1 k) as [->|(o & _ & _ & ->)]; [done|].
    by apply extends_install. }
  by rewrite Hrun in H.
Qed.

Lemma delegate_keys_normal_iff r h0 d ks :
  isolated h0 r = true -> ref_ok h0 r d = true ->
  forall h, extends r h0 h ->
  (exists h', for_of (delegate_key depth r d) h ks = Normal h')
  <-> forallb (member_ok h0 d) ks = true.
Proof.
  intros Hiso Hd. induction ks as [|k ks IH]; intros h Hext; simpl.
  - split; eauto.
  - pose proof (delegate_key_normal_iff r d h k) as Hiff.
    rewrite (member_ok_extends r h0 h d k Hiso Hext Hd) in Hiff.
    destruct (delegate_key depth r d h k) as [h1|e h1] eqn:E.
    + assert (member_ok h0 d k = true) as -> by (apply Hiff; eauto).
      simpl. apply IH. by eapply delegate_key_extends.
    + destruct (member_ok h0 d k).
      * destruct Hiff as [_ Hiff]. by destruct (Hiff eq_refl).
      * simpl. split; [by intros [? ?]|done].
Qed.

Lemma delegate_donors_normal_iff r h0 ds :
  isolated h0 r = true -> forallb (ref_ok h0 r) ds = true ->
  forall h, extends r h0 h ->
  (exists h', for_of (delegate_candidate depth r) h ds = Normal h')
  <-> forallb (donor_ok h0) ds = true.
Proof.
  intros Hiso. induction ds as [|d ds IH]; intros Hds h Hext; simpl.
  - split; eauto.
  - simpl in Hds. apply andb_true_iff in Hds as [Hd Hds].
    rewrite delegate_body_eq, donor_ok_names.
    destruct (delegate_stable depth r h0 h d "" Hiso Hext Hd) as (-> & _ & _).
    destruct (delegate_names h0 d) as [ks|]; [|split; [by intros [? ?]|done]].
    pose proof (delegate_keys_normal_iff r h0 d ks Hiso Hd h Hext) as Hiff.
    destruct (for_of (delegate_key depth r d) h ks) as [h1|e h1] eqn:E.
    + assert (forallb (member_ok h0 d) ks = true) as -> by (apply Hiff; eauto).
      simpl. apply IH; [done|]. by eapply delegate_keys_extends.
    + destruct (forallb (member_ok h0 d) ks).
      * destruct Hiff as [_ Hiff]. by destruct (Hiff eq_refl).
      * simpl. split; [by intros [? ?]|done].
Qed.

(** X2. [delegate] completes exactly when every donor has a prototype
    and every own name of that prototype resolves, through the donor,
    to a value that is neither [undefined] nor [null] and, where it
    carries the mark, is a function.  When [delegate] does not complete,
    what it throws is a TypeError.  (Recipient fresh and distinct from
    the donors.) *)
Theorem delegate_completes_iff h r ds :
  separated h r ds = true ->
  ((exists h', delegate h r ds = Normal h') <-> forallb (donor_ok h) ds = true) /\
  (forall e h', delegate h r ds = Throw e h' -> e = TypeError).
Proof.
  intros (Hr & Hiso & Hds)%separated_spec. split.
  - apply (delegate_donors_normal_iff r h ds Hiso Hds h), extends_refl.
  - intros e h' Hrun.
    destruct (for_of_throw _ _ _ _ _ Hrun) as (d & h1 & _ & Hd).
    rewrite delegate_body_eq in Hd.
    destruct (delegate_names h1 d) as [ks|]; [|by injection Hd].
    destruct (for_of_throw _ _ _ _ _ Hd) as (k & h2 & _ & Hk).
    by eapply delegate_key_throw.
Qed.

End Completion.

Lemma delegate_completes_iff_witness :
  ((exists h', delegate 8 store recipient [one; two; derived] = Normal h')
   <-> forallb (donor_ok 8 store) [one; two; derived] = true) /\
  (forall e h', delegate 8 store recipient [one; two; derived] = Throw e h' ->
                e = TypeError).
Proof.
  apply (delegate_completes_iff 8 store recipient [one; two; derived]).
  vm_compute; reflexivity.
Defined.

(** ** Binder calls one after the other *)

Section Composition.

Variable depth : nat.
Variable code : nat -> value -> list value -> heap -> outcome (value * heap).
Variable FunctionPrototype : loc.

Local Abbreviation get := (get depth).
Local Abbreviation bind := (bind depth FunctionPrototype).
Local Abbreviation carries := (carries depth).
Local Abbreviation forwarded := (forwarded depth).
Local Abbreviation call_value := (call_value depth code).
Local Abbreviation call_method := (call_method depth code).

(** The function object binder [b] builds for member [m] of donor [d]. *)
Local Abbreviation wrapper_of b r h d m :=
  (match b with
   | Instance => delegate_wrapper depth h d m
   | Static => delegateStatic_wrapper depth FunctionPrototype r h d m
   end).

Lemma carries_extends b r h0 h d m :
  isolated h0 r = true -> extends r h0 h -> ref_ok h0 r d = true ->
  carries b h d m = carries b h0 d m.
Proof.
  intros Hiso Hext Hd. destruct b; simpl.
  - rewrite !delegates_carries.
    by destruct (delegate_stable depth r h0 h d m Hiso Hext Hd) as (-> & -> & _).
  - rewrite !delegates_static_carries.
    by destruct (delegateStatic_stable depth FunctionPrototype r h0 h d m Hiso Hext Hd)
      as (-> & -> & _).
Qed.

Lemma bind_holds b h r pre d post m h' :
  separated h r (pre ++ d :: post) = true ->
  carries b h d m = true ->
  forallb (fun d' => negb (carries b h d' m)) post = true ->
  bind b h r (pre ++ d :: post) = Normal h' ->
  extends r h h' /\ exists o, wrapper_of b r h d m = Some o /\ holds r h' m o.
Proof.
  destruct b; [apply delegate_last_writer | apply delegateStatic_last_writer].
Qed.

Lemma member_call b r h h' d m o this args :
  isolated h r = true -> extends r h h' -> ref_ok h r d = true ->
  wrapper_of b r h d m = Some o -> holds r h' m o ->
  exists f, get h d m = VObj f /\
    call_value h' (get h' r m) this args =
    call_method h' d m (forwarded b h f r args).
Proof.
  intros Hiso Hext Hd Hw Hh. destruct b.
  - pose proof Hw as (f & _ & Hget & _)%delegate_wrapper_inv.
    exists f. split; [done|].
    exact (bound_member_call depth code r h h' d m o this args Hiso Hext Hd Hw Hh).
  - pose proof Hw as (f & _ & Hget & _)%delegateStatic_wrapper_inv.
    exists f. split; [done|].
    rewrite (static_member_call depth code FunctionPrototype r h h' d m o this args
               Hiso Hext Hd Hw Hh).
    unfold omits_first. by rewrite Hget.
Qed.

(** A binder call whose donors do not carry [m] keeps the member [m]
    that an earlier call installed. *)
Lemma bind_keeps b h0 h r ds m o :
  isolated h0 r = true -> forallb (ref_ok h0 r) ds = true ->
  forallb (fun d => negb (carries b h0 d m)) ds = true ->
  extends r h0 h -> holds r h m o ->
  extends r h0 (final (bind b h r ds)) /\ holds r (final (bind b h r ds)) m o.
Proof.
  intros Hiso Hds Hno Hext Hh.
  rewrite forallb_forall in Hds, Hno.
  destruct b; simpl in *.
  - unfold delegate.
    apply (for_of_final (fun h1 => extends r h0 h1 /\ holds r h1 m o)); [|done].
    intros h1 d Hd%list_elem_of_In [Hext1 Hh1]. split.
    + by apply (body_extends r delegate_names (delegate_test depth)
        (delegate_wrapper depth) (delegate_key depth r) (delegate_candidate depth r)
        (delegate_body_eq depth r) (delegate_step_cases depth r)).
    + apply (other_donor_keeps r delegate_names (delegate_test depth)
        (delegate_wrapper depth) (delegate_key depth r) (delegate_candidate depth r)
        (delegate_body_eq depth r) (delegate_step_cases depth r)
        (delegate_wrapper_props depth) h0
        (fun h2 d2 k2 => delegate_stable depth r h0 h2 d2 k2 Hiso));
        [by apply Hds| |done..].
      rewrite <- delegates_carries. apply negb_true_iff. by apply Hno.
  - unfold delegateStatic.
    apply (for_of_final (fun h1 => extends r h0 h1 /\ holds r h1 m o)); [|done].
    intros h1 d Hd%list_elem_of_In [Hext1 Hh1]. split.
    + by apply (body_extends r (delegateStatic_names depth)
        (delegateStatic_test depth)
        (delegateStatic_wrapper depth FunctionPrototype r)
        (delegateStatic_key depth FunctionPrototype r)
        (delegateStatic_candidate depth FunctionPrototype r)
        (delegateStatic_body_eq depth FunctionPrototype r)
        (delegateStatic_step_cases depth FunctionPrototype r)).
    + apply (other_donor_keeps r (delegateStatic_names depth)
        (delegateStatic_test depth)
        (delegateStatic_wrapper depth FunctionPrototype r)
        (delegateStatic_key depth FunctionPrototype r)
        (delegateStatic_candidate depth FunctionPrototype r)
        (delegateStatic_body_eq depth FunctionPrototype r)
        (delegateStatic_step_cases depth FunctionPrototype r)
        (delegateStatic_wrapper_props depth FunctionPrototype r) h0
        (fun h2 d2 k2 =>
           delegateStatic_stable depth FunctionPrototype r h0 h2 d2 k2 Hiso));
        [by apply Hds| |done..].
      rewrite <- delegates_static_carries. apply negb_true_iff. by apply Hno.
Qed.


(** X5. A second binder call on the same recipient, with either binder,
    keeps what the first one installed unless it brings the same name:
    if no donor of the second call carries [m], the recipient's [m]
    still goes to the donor of the first call. *)
Theorem later_binding_keeps_member b1 b2 h r pre d post ds2 m h1 h2 :
  separated h r (pre ++ d :: post) = true ->
  forallb (ref_ok h r) ds2 = true ->
  carries b1 h d m = true ->
  forallb (fun x => negb (carries b1 h x m)) post = true ->
  forallb (fun x => negb (carries b2 h x m)) ds2 = true ->
  bind b1 h r (pre ++ d :: post) = Normal h1 ->
  bind b2 h1 r ds2 = Normal h2 ->
  exists f, get h d m = VObj f /\
    forall args,
      call_method h2 r m args = call_method h2 d m (forwarded b1 h f r args).
Proof.
  intros Hsep Hds2 Hc Hpost Hno Hrun1 Hrun2.
  pose proof Hsep as (Hr & Hiso & Hds)%separated_spec.
  apply ref_ok_middle in Hds.
  destruct (bind_holds b1 h r pre d post m h1 Hsep Hc Hpost Hrun1)
    as (Hext1 & o & Hw & Hh1).
  destruct (bind_keeps b2 h h1 r ds2 m o Hiso Hds2 Hno Hext1 Hh1) as [Hext2 Hh2].
  rewrite Hrun2 in Hext2, Hh2. simpl in Hext2, Hh2.
  destruct (member_call b1 r h h2 d m o (VObj r) [] Hiso Hext2 Hds Hw Hh2)
    as (f & Hget & _).
  exists f. split; [done|]. intros args.
  destruct (member_call b1 r h h2 d m o (VObj r) args Hiso Hext2 Hds Hw Hh2)
    as (f' & Hget' & Hcall).
  rewrite Hget in Hget'. injection Hget' as <-. exact Hcall.
Qed.

(** X8. Two recipients can delegate the same donor.  Binding a second
    recipient, a fresh object of the store the first binding left,
    does not disturb the first: afterwards both recipients forward [m]
    to the donor, each passing itself where the mark asks for it. *)
Theorem second_recipient_shares_donor b h r1 r2 d m h1 h2 :
  separated h r1 [d] = true ->
  carries b h d m = true ->
  bind b h r1 [d] = Normal h1 ->
  separated h1 r2 [d] = true ->
  r1 <> r2 ->
  bind b h1 r2 [d] = Normal h2 ->
  exists f, get h d m = VObj f /\
    forall args,
      call_method h2 r1 m args = call_method h2 d m (forwarded b h f r1 args) /\
      call_method h2 r2 m args = call_method h2 d m (forwarded b h f r2 args).
Proof.
  intros Hsep1 Hc Hrun1 Hsep2 Hne Hrun2.
  pose proof Hsep1 as (Hr1 & Hiso1 & Hd1)%separated_spec.
  pose proof Hsep2 as (Hr2 & Hiso2 & Hd2)%separated_spec.
  simpl in Hd1, Hd2. rewrite andb_true_r in Hd1, Hd2.
  destruct (bind_holds b h r1 [] d [] m h1 Hsep1 Hc eq_refl Hrun1)
    as (Hext1 & o & Hw & Hh1).
  assert (extends r2 h1 h2) as Hext2.
  { pose proof (bind_extends depth FunctionPrototype b h1 r2 [d]) as H.
    by rewrite Hrun2 in H. }
  assert (exists f fo, get h d m = VObj f /\ h !! f = Some fo /\
            ocall o = match b with
                      | Instance => CBound f (ocall fo) (VObj d)
                      | Static => CStaticWrapper f (ocall fo) (VObj d) (VObj r1)
                      end) as (f & fo & Hget & Hf & Ho).
  { destruct b.
    - apply delegate_wrapper_inv in Hw as (f & fo & ? & ? & ->). by exists f, fo.
    - apply delegateStatic_wrapper_inv in Hw as (f & fo & ? & ? & ->).
      by exists f, fo. }
  destruct (donor_member_stable depth r1 h h1 d m f fo Hiso1 Hext1 Hd1 Hget Hf)
    as (Hget1 & Hf1 & Hk1).
  destruct (donor_member_stable depth r2 h1 h2 d m f fo Hiso2 Hext2 Hd2 Hget1 Hf1)
    as (Hget2 & Hf2 & Hk2).
  exists f. split; [done|]. intros args. split.
  - destruct Hh1 as (i & Hown & _ & Hi).
    assert (ref_ok h1 r2 i = true) as Hiok.
    { unfold own_value in Hown. destruct (h1 !! r1) as [ro|] eqn:Hro; [|done].
      destruct (lookup_own (oprops ro) m) as [p|] eqn:Hp; [|done].
      injection Hown as Hpv.
      pose proof (obj_ok_prop h1 r2 ro m p (isolated_lookup _ _ _ _ Hiso2 Hro) Hp) as Hv.
      by rewrite Hpv in Hv. }
    assert (own_value h2 r1 m = Some (VObj i)) as Hown2.
    { unfold own_value in *. destruct Hext2 as [_ Hsame].
      rewrite Hsame; [done| |done]. destruct Hext1. lia. }
    unfold call_method. rewrite (get_own depth h2 r1 m _ Hown2), Hget2. simpl.
    rewrite (extends_lookup r2 h1 h2 i Hext2 Hiok), Hi, Hf2, Ho.
    destruct b; simpl; [done|]. by rewrite Hk2, Hk1.
  - assert (carries b h1 d m = true) as Hc1.
    { by rewrite (carries_extends b r1 h h1 d m Hiso1 Hext1 Hd1). }
    destruct (bind_last_writer depth code FunctionPrototype b h1 r2 [] d [] m h2
                Hsep2 Hc1 eq_refl Hrun2)
      as (f' & fo' & i' & o' & Hget' & _ & _ & _ & _ & Hcall).
    rewrite Hget1 in Hget'. injection Hget' as <-.
    etrans; [apply (Hcall (VObj r2) args)|].
    destruct b; simpl; [done|]. by rewrite Hk1.
Qed.

End Composition.

(** ** Marking, then binding *)

Lemma lookup_set_prop h l k v l0 :
  set_prop h l k v !! l0 =
  if decide (l = l0)
  then (fun o => mkObj (oproto o) (set_own (oprops o) k v) (ocall o)) <$> h !! l0
  else h !! l0.
Proof.
  unfold set_prop. rewrite list_lookup_alter. by case_decide; subst.
Qed.

Lemma get_from_set_prop n h l k v l0 m :
  m <> k -> get_from n (set_prop h l k v) l0 m = get_from n h l0 m.
Proof.
  intros Hne. revert l0. induction n as [|n IH]; intros l0; simpl;
    rewrite lookup_set_prop; case_decide; destruct (h !! l0) as [o|]; simpl;
    rewrite ?lookup_own_set_own_ne by done; try done;
    destruct (lookup_own (oprops o) m); try done;
    destruct (oproto o); done.
Qed.

Lemma getPrototypeOf_set_prop h l k v l0 :
  getPrototypeOf (set_prop h l k v) l0 = getPrototypeOf h l0.
Proof.
  unfold getPrototypeOf. rewrite lookup_set_prop.
  case_decide; by destruct (h !! l0).
Qed.

Lemma is_function_set_prop h l k v x :
  is_function (set_prop h l k v) x = is_function h x.
Proof.
  destruct x; simpl; try done. rewrite lookup_set_prop.
  case_decide; by destruct (h !! _).
Qed.

Lemma elem_of_set_own ps k v m p :
  m <> k -> (m, p) ∈ set_own ps k v <-> (m, p) ∈ ps.
Proof.
  intros Hne. induction ps as [|[k' q] ps IH]; simpl.
  - rewrite list_elem_of_singleton. split; [|by intros ?%not_elem_of_nil].
    intros [= -> _]. done.
  - destruct (String.eqb k' k) eqn:E.
    + apply String.eqb_eq in E. subst k'. rewrite !elem_of_cons.
      split; intros [[= -> _]|H]; try done; by right.
    + rewrite !elem_of_cons, IH. done.
Qed.

Lemma names_set_own ps k v m :
  m <> k -> m ∈ map fst (set_own ps k v) <-> m ∈ map fst ps.
Proof.
  intros Hne. induction ps as [|[k' q] ps IH]; simpl.
  - rewrite list_elem_of_singleton. split; [done|by intros ?%not_elem_of_nil].
  - destruct (String.eqb k' k) eqn:E; simpl; [done|].
    rewrite !elem_of_cons, IH. done.
Qed.

Lemma elem_of_names (ps : list (string * prop)) m :
  m ∈ map fst ps <-> exists p, (m, p) ∈ ps.
Proof.
  induction ps as [|[k q] ps IH]; simpl.
  - split; [by intros ?%not_elem_of_nil|by intros [? ?%not_elem_of_nil]].
  - rewrite elem_of_cons, IH. split.
    + intros [->|[p Hp]]; [exists q; by left|exists p; by right].
    + intros [p [[= -> ->]|Hp]%elem_of_cons]; [by left|right; eauto].
Qed.

Lemma here_mono (ps ps' : list (string * prop)) seen seen' m :
  (forall p, (m, p) ∈ ps -> (m, p) ∈ ps') ->
  (m ∈ seen' -> m ∈ seen) ->
  m ∈ map fst (filter (fun kp : string * prop =>
                         penumerable (snd kp) && negb (mem (fst kp) seen)) ps) ->
  m ∈ map fst (filter (fun kp : string * prop =>
                         penumerable (snd kp) && negb (mem (fst kp) seen')) ps').
Proof.
  intros Hps Hseen. rewrite !elem_of_names. intros [p Hp]. exists p.
  apply list_elem_of_filter in Hp as [HP Hin]. apply list_elem_of_filter.
  split; [|by apply Hps]. simpl in *.
  apply andb_prop_elim in HP as [He Hs]. apply andb_prop_intro. split; [done|].
  apply negb_prop_elim in Hs. apply negb_prop_intro. intros Hm. apply Hs.
  apply Is_true_true, mem_spec, Hseen, mem_spec, Is_true_true, Hm.
Qed.

Lemma for_in_keys_from_set_prop n h l k v m :
  m <> k -> forall D seen seen',
  (m ∈ seen' -> m ∈ seen) ->
  m ∈ for_in_keys_from n h D seen ->
  m ∈ for_in_keys_from n (set_prop h l k v) D seen'.
Proof.
  intros Hne. induction n as [|n IH]; intros D seen seen' Hseen; simpl;
    rewrite lookup_set_prop; destruct (h !! D) as [o|] eqn:HD;
    try (by case_decide).
  - assert (forall ps', (forall p, (m, p) ∈ oprops o -> (m, p) ∈ ps') ->
        m ∈ map fst (filter (fun kp : string * prop =>
                 penumerable (snd kp) && negb (mem (fst kp) seen)) (oprops o)) ->
        m ∈ map fst (filter (fun kp : string * prop =>
                 penumerable (snd kp) && negb (mem (fst kp) seen')) ps')) as H.
    { intros ps' Hps. by apply here_mono. }
    case_decide; simpl; apply H; [|done].
    intros p Hp. by apply elem_of_set_own.
  - assert (forall ps',
        (forall p, (m, p) ∈ oprops o -> (m, p) ∈ ps') ->
        (m ∈ map fst ps' -> m ∈ map fst (oprops o)) ->
        m ∈ match oproto o with
            | Some p =>
                map fst (filter (fun kp : string * prop =>
                  penumerable (snd kp) && negb (mem (fst kp) seen)) (oprops o))
                ++ for_in_keys_from n h p (seen ++ map fst (oprops o))
            | None =>
                map fst (filter (fun kp : string * prop =>
                  penumerable (snd kp) && negb (mem (fst kp) seen)) (oprops o))
            end ->
        m ∈ match oproto o with
            | Some p =>
                map fst (filter (fun kp : string * prop =>
                  penumerable (snd kp) && negb (mem (fst kp) seen')) ps')
                ++ for_in_keys_from n (set_prop h l k v) p (seen' ++ map fst ps')
            | None =>
                map fst (filter (fun kp : string * prop =>
                  penumerable (snd kp) && negb (mem (fst kp) seen')) ps')
            end) as H.
    { intros ps' Hps Hnames. destruct (oproto o) as [p|]; [|by apply here_mono].
      rewrite !elem_of_app. intros [Hh|Hrec]; [left; by apply (here_mono (oprops o) ps' seen seen')|].
      right. revert Hrec. apply IH. rewrite !elem_of_app. tauto. }
    case_decide; simpl; apply H; try done.
    + intros p Hp. by apply elem_of_set_own.
    + by apply names_set_own.
Qed.

Lemma isolated_intro h r :
  (forall l o, h !! l = Some o -> obj_ok h r o = true) -> isolated h r = true.
Proof.
  intros H. apply forallb_forall. intros o Ho.
  apply list_elem_of_In, list_elem_of_lookup in Ho as [l Hl]. eauto.
Qed.

Lemma obj_ok_set_own h r o k v :
  obj_ok h r o = true -> value_ok h r v = true ->
  obj_ok h r (mkObj (oproto o) (set_own (oprops o) k v) (ocall o)) = true.
Proof.
  unfold obj_ok. simpl. rewrite !andb_true_iff. intros [Hp Hps] Hv.
  split; [done|]. clear Hp.
  induction (oprops o) as [|[k' q] ps IH]; simpl in *.
  - by rewrite Hv.
  - apply andb_true_iff in Hps as [Hq Hps].
    destruct (String.eqb k' k); simpl; rewrite ?Hv, ?Hq; simpl; auto.
Qed.

Lemma forallb_pointwise {A} (f g : A -> bool) xs :
  (forall x, f x = g x) -> forallb f xs = forallb g xs.
Proof. intros E. induction xs; simpl; [done|]. by rewrite E, IHxs. Qed.

Lemma separated_set_prop h r ds l k v :
  separated h r ds = true -> value_ok h r v = true ->
  separated (set_prop h l k v) r ds = true.
Proof.
  intros (Hr & Hiso & Hds)%separated_spec Hv.
  assert (forall x, ref_ok (set_prop h l k v) r x = ref_ok h r x) as Href.
  { intros x. unfold ref_ok. by rewrite length_set_prop. }
  assert (forall o, obj_ok (set_prop h l k v) r o = obj_ok h r o) as Hobj.
  { intros o. unfold obj_ok. f_equal.
    - destruct (oproto o); [apply Href|done].
    - apply forallb_pointwise. intros [k' p]. simpl.
      destruct (pvalue p); simpl; done. }
  unfold separated. rewrite length_set_prop.
  apply andb_true_iff. split; [apply andb_true_iff; split|].
  - by apply Nat.ltb_lt.
  - apply isolated_intro. intros l0 o. rewrite lookup_set_prop, Hobj.
    case_decide; destruct (h !! l0) as [o0|] eqn:Ho0; simpl; intros [= <-].
    + apply obj_ok_set_own; [|done]. by eapply isolated_lookup.
    + by eapply isolated_lookup.
  - by rewrite (forallb_pointwise _ _ ds Href).
Qed.

Section Marking.

Variable depth : nat.
Variable code : nat -> value -> list value -> heap -> outcome (value * heap).
Variable FunctionPrototype : loc.

Local Abbreviation get := (get depth).
Local Abbreviation bind := (bind depth FunctionPrototype).
Local Abbreviation carries := (carries depth).
Local Abbreviation call_method := (call_method depth code).

Lemma get_set_prop h l k v l0 m :
  m <> k -> get (set_prop h l k v) l0 m = get h l0 m.
Proof. apply get_from_set_prop. Qed.

Lemma enumerated_set_prop b h l k v d m :
  m <> k ->
  mem m (enumerated depth b h d) = true ->
  mem m (enumerated depth b (set_prop h l k v) d) = true.
Proof.
  intros Hne. rewrite !mem_spec. destruct b; simpl.
  - unfold prototype_names. rewrite getPrototypeOf_set_prop.
    destruct (getPrototypeOf h d) as [p|]; [|done].
    unfold getOwnPropertyNames. rewrite lookup_set_prop.
    case_decide; destruct (h !! p) as [o|]; simpl; try done.
    by apply names_set_own.
  - by apply for_in_keys_from_set_prop.
Qed.

(** X6. Marking and binding fit together.  Take a function that the
    binder's enumeration of the donor reaches under the name [m];
    decorate it with [DelegateMethod(omitFirst)]; bind.  Then
    [recipient.m(args)] is [donor.m(args)] after [delegate], whatever
    the flag, and after [delegateStatic] it is [donor.m(args)] when the
    flag is false or omitted and [donor.m(recipient, ...args)] when it
    is true. *)
Theorem mark_then_bind b omitFirst h r d m f h2 :
  separated h r [d] = true ->
  mem m (enumerated depth b h d) = true ->
  get h d m = VObj f ->
  is_function h (VObj f) = true ->
  m <> "isDelegated" -> m <> "omitFirst" ->
  bind b (final (DelegateMethod omitFirst h (VObj f))) r [d] = Normal h2 ->
  forall args,
    call_method h2 r m args =
    call_method h2 d m
      (match b with
       | Instance => args
       | Static => if default false omitFirst then VObj r :: args else args
       end).
Proof.
  intros Hsep Hm Hget Hfun Hn1 Hn2. simpl.
  set (h0 := set_prop h f "isDelegated" (VBool true)).
  set (h1 := set_prop h0 f "omitFirst" (VBool (default false omitFirst))).
  intros Hrun args.
  assert (f < length h) as Hlt.
  { simpl in Hfun. destruct (h !! f) eqn:E; [by eapply lookup_lt_Some|done]. }
  assert (separated h1 r [d] = true) as Hsep1.
  { apply separated_set_prop; [|done]. by apply separated_set_prop. }
  assert (get h1 d m = VObj f) as Hget1.
  { unfold h1, h0. by rewrite !get_set_prop. }
  assert (get h1 f "isDelegated" = VBool true) as Hmark.
  { apply get_own. unfold h1. rewrite own_value_set_prop_ne by done.
    by apply own_value_set_prop_eq. }
  assert (get h1 f "omitFirst" = VBool (default false omitFirst)) as Hflag.
  { apply get_own, own_value_set_prop_eq. unfold h0. by rewrite length_set_prop. }
  assert (carries b h1 d m = true) as Hc.
  { assert (mem m (enumerated depth b h1 d) = true) as Hm1.
    { unfold h1, h0. apply enumerated_set_prop; [done|].
      by apply enumerated_set_prop. }
    assert (is_function h1 (VObj f) = true) as Hfun1.
    { unfold h1, h0. by rewrite !is_function_set_prop. }
    assert (is_marked depth h1 (VObj f) = true) as Hmk.
    { unfold is_marked. simpl. by rewrite Hmark. }
    destruct b; unfold carries.
    - unfold delegates. change (enumerated depth Instance h1 d)
        with (prototype_names h1 d) in Hm1. by rewrite Hm1, Hget1, Hmk.
    - unfold delegates_static. change (enumerated depth Static h1 d)
        with (for_in_keys depth h1 d) in Hm1. by rewrite Hm1, Hget1, Hfun1, Hmk. }
  destruct (bind_last_writer depth code FunctionPrototype b h1 r [] d [] m h2
              Hsep1 Hc eq_refl Hrun)
    as (f' & fo & i & o & Hget' & _ & _ & _ & _ & Hcall).
  rewrite Hget1 in Hget'. injection Hget' as <-.
  etrans; [apply (Hcall (VObj r) args)|].
  destruct b; simpl; [done|]. by rewrite Hflag.
Qed.

End Marking.

(** ** What the installed members are not *)


Section Unmarked.

Variable depth : nat.
Variable FunctionPrototype : loc.

Local Abbreviation get := (get depth).
Local Abbreviation bind := (bind depth FunctionPrototype).
Local Abbreviation carries := (carries depth).
Local Abbreviation is_marked := (is_marked depth).

(** X10. Without a marked member nothing is written.  If no name that
    [delegate] enumerates on a donor resolves to a marked value, the
    store [delegate] ends with is the store it started from, whether it
    completes or throws. *)
Theorem delegate_without_marks_changes_nothing h r ds :
  (forall d k, d ∈ ds -> k ∈ prototype_names h d ->
               is_marked h (get h d k) = false) ->
  final (delegate depth h r ds) = h.
Proof.
  intros Hno. unfold delegate.
  apply (for_of_final (fun h' => h' = h)); [|done].
  intros h1 d Hd ->. rewrite delegate_body_eq.
  specialize (Hno d). unfold prototype_names, delegate_names in *.
  destruct (getPrototypeOf h d) as [p|]; [|done]. simpl.
  apply (for_of_final (fun h' => h' = h)); [|done].
  intros h1 k Hk ->.
  destruct (delegate_step_cases depth r d h k) as [->|(o & _ & Hc & _)]; [done|].
  unfold delegate_test in Hc. by rewrite (Hno k Hd Hk) in Hc.
Qed.


End Unmarked.

(** ** Witnesses of the further properties *)

Lemma later_binding_keeps_member_witness :
  exists f, get 8 store one "doSomething" = VObj f /\
    forall args,
      call_method 8 code
        (final (bind 8 FunctionPrototype Static
                  (final (bind 8 FunctionPrototype Instance store recipient [one]))
                  recipient [StaticClass]))
        recipient "doSomething" args
      = call_method 8 code
          (final (bind 8 FunctionPrototype Static
                    (final (bind 8 FunctionPrototype Instance store recipient [one]))
                    recipient [StaticClass]))
          one "doSomething" (forwarded 8 Instance store f recipient args).
Proof.
  apply (later_binding_keeps_member 8 code FunctionPrototype Instance Static
           store recipient [] one [] [StaticClass] "doSomething"
           (final (bind 8 FunctionPrototype Instance store recipient [one])));
    vm_compute; reflexivity.
Defined.

Lemma mark_then_bind_witness :
  call_method 8 code
    (final (bind 8 FunctionPrototype Static
              (final (DelegateMethod (Some true) store (VObj plain)))
              recipient [StaticClass]))
    recipient "helper" [VNum 7]
  = call_method 8 code
      (final (bind 8 FunctionPrototype Static
                (final (DelegateMethod (Some true) store (VObj plain)))
                recipient [StaticClass]))
      StaticClass "helper" [VObj recipient; VNum 7].
Proof.
  apply (mark_then_bind 8 code FunctionPrototype Static (Some true) store recipient
           StaticClass "helper" plain); try (vm_compute; reflexivity); discriminate.
Defined.

Lemma second_recipient_shares_donor_witness :
  exists f, get 8 store StaticClass "change" = VObj f /\
    forall args,
      call_method 8 code
        (final (bind 8 FunctionPrototype Static
                  (final (bind 8 FunctionPrototype Static store recipient [StaticClass]))
                  two [StaticClass]))
        recipient "change" args
      = call_method 8 code
          (final (bind 8 FunctionPrototype Static
                    (final (bind 8 FunctionPrototype Static store recipient [StaticClass]))
                    two [StaticClass]))
          StaticClass "change" (forwarded 8 Static store f recipient args) /\
      call_method 8 code
        (final (bind 8 FunctionPrototype Static
                  (final (bind 8 FunctionPrototype Static store recipient [StaticClass]))
                  two [StaticClass]))
        two "change" args
      = call_method 8 code
          (final (bind 8 FunctionPrototype Static
                    (final (bind 8 FunctionPrototype Static store recipient [StaticClass]))
                    two [StaticClass]))
          StaticClass "change" (forwarded 8 Static store f two args).
Proof.
  apply (second_recipient_shares_donor 8 code FunctionPrototype Static store
           recipient two StaticClass "change"
           (final (bind 8 FunctionPrototype Static store recipient [StaticClass])));
    try (vm_compute; reflexivity).
  vm_compute. lia.
Defined.


Lemma delegate_without_marks_changes_nothing_witness :
  final (delegate 8 store recipient [derived; labelled]) = store.
Proof.
  apply (delegate_without_marks_changes_nothing 8 store recipient [derived; labelled]).
  intros d k Hd Hk.
  apply elem_of_cons in Hd as [->|Hd].
  - vm_compute in Hk. apply list_elem_of_singleton in Hk. subst. reflexivity.
  - apply list_elem_of_singleton in Hd. subst. vm_compute in Hk.
    apply elem_of_cons in Hk as [->|Hk]; [reflexivity|].
    apply list_elem_of_singleton in Hk. subst. reflexivity.
Defined.

